(** * go-battleye: BattlEye RCON client

    A shallow embedding of the packet codec (packet.go, parser.go), the
    fragment reassembler, the sequence counter, the client life cycle with
    its receiver, dispatcher and keep-alive (client.go,
    client_config_options.go, done.go) and the message handlers of the
    mock server (client_test.go), together with the properties of the
    protocol engine.

    Conventions.
    - A Go [byte] is a [Byte.byte]; a Go [string] and a [[]byte] are both
      [list byte].
    - A [uint32] / [uint64] is a [Z] with its wrap-around written out.
    - A run-time panic (index out of range, nil dereference, closing a
      closed channel) is the [Panic] outcome; a returned [error] is [Fail].
    - A call that waits for other goroutines either [Returns] an outcome
      or [Blocks] for ever; what the other goroutines, the network, the
      clock and the runtime do is given to the functions as arguments.
    - [map[byte]T] is [gmap byte T], [map[byte]struct{}] is [gset byte]. *)

From Stdlib Require Import ZArith Lia List Bool.
From Stdlib Require Import Strings.Byte.
From stdpp Require Import base decidable countable list gmap.

Local Open Scope Z_scope.

(* ===================================================================== *)
(** ** Bytes *)
(* ===================================================================== *)

#[global] Instance byte_eq_decision : EqDecision byte := Byte.byte_eq_dec.

#[global] Instance byte_countable : Countable byte :=
  inj_countable Byte.to_N Byte.of_N Byte.of_to_N.

(** [uint32(b)], [uint64(b)], [int(b)]: widening a byte. *)
Definition byte_to_Z (b : byte) : Z := Z.of_N (Byte.to_N b).

(** [byte(v)]: truncation of an unsigned integer to its low eight bits. *)
Definition byte_of_Z (v : Z) : byte :=
  match Byte.of_N (Z.to_N (v mod 256)) with
  | Some b => b
  | None => x00
  end.

(** Index of a byte used as a slice subscript. *)
Definition byte_to_nat (b : byte) : nat := N.to_nat (Byte.to_N b).

(** [byte(i)] for a loop counter or an index. *)
Definition byte_of_nat (i : nat) : byte := byte_of_Z (Z.of_nat i).

(* ===================================================================== *)
(** ** Outcomes: value, returned error, or panic *)
(* ===================================================================== *)

(** errors.go *)
Inductive error : Type :=
| ErrInvalidMessageBufferSize
| ErrInvalidPacketSize
| ErrInvalidHeader
| ErrInvalidChecksum
| ErrInvalidEndOfHeader
| ErrUnknownPacketType
| ErrInvalidLoginResponse
| ErrNilOption
| ErrLoginFailed
| ErrTimeout
| ErrNet (code : nat).  (* an error of the net package, surfaced verbatim *)

Inductive outcome (A : Type) : Type :=
| Ret (a : A)
| Fail (e : error)
| Panic.
Arguments Ret {A} a.
Arguments Fail {A} e.
Arguments Panic {A}.

(** Sequencing: the first error or panic ends the computation. *)
#[global] Instance outcome_bind : MBind outcome := fun A B k m =>
  match m with
  | Ret a => k a
  | Fail e => Fail e
  | Panic => Panic
  end.

#[global] Instance outcome_fmap : FMap outcome := fun A B f m =>
  match m with
  | Ret a => Ret (f a)
  | Fail e => Fail e
  | Panic => Panic
  end.

(** A call returns, with a value, an error or a panic, or it blocks for
    ever. *)
Inductive completion (A : Type) : Type :=
| Returns (o : outcome A)
| Blocks.
Arguments Returns {A} o.
Arguments Blocks {A}.

(** [raw[i]]: panics when [i] is out of range. *)
Definition index {A} (raw : list A) (i : nat) : outcome A :=
  match raw !! i with
  | Some a => Ret a
  | None => Panic
  end.

(** [raw[lo:hi]]: panics unless [lo <= hi <= len(raw)]. *)
Definition slice {A} (raw : list A) (lo hi : nat) : outcome (list A) :=
  if (lo <=? hi)%nat && (hi <=? length raw)%nat
  then Ret (take (hi - lo) (drop lo raw))
  else Panic.

(** [raw[lo:]]: panics unless [lo <= len(raw)]. *)
Definition slice_from {A} (raw : list A) (lo : nat) : outcome (list A) :=
  if (lo <=? length raw)%nat then Ret (drop lo raw) else Panic.

(* ===================================================================== *)
(** ** hash/crc32 and encoding/binary (Go standard library) *)
(* ===================================================================== *)

Module crc32.

(** The reflected IEEE polynomial. *)
Definition IEEE : Z := 0xedb88320.

(** One bit of the register: shift right, folding the polynomial in when
    the bit shifted out is set. *)
Definition shift1 (crc : Z) : Z :=
  if Z.testbit crc 0 then Z.lxor (Z.shiftr crc 1) IEEE else Z.shiftr crc 1.

(** One input byte: eight register shifts after xoring the byte in. *)
Definition update1 (crc : Z) (b : byte) : Z :=
  Nat.iter 8 shift1 (Z.lxor crc (byte_to_Z b)).

Definition update (crc : Z) (p : list byte) : Z := fold_left update1 p crc.

(** [crc32.ChecksumIEEE]: register preset to all ones, result inverted. *)
Definition ChecksumIEEE (data : list byte) : Z :=
  Z.lxor (update 0xffffffff data) 0xffffffff.

End crc32.

Module LittleEndian.

(** [binary.LittleEndian.PutUint32(b, v)] on a four-byte slice. *)
Definition PutUint32 (v : Z) : list byte :=
  [ byte_of_Z v;
    byte_of_Z (Z.shiftr v 8);
    byte_of_Z (Z.shiftr v 16);
    byte_of_Z (Z.shiftr v 24) ].

(** [binary.LittleEndian.Uint32(b)]: reads [b[3]] first (the bounds
    check), so a slice shorter than four bytes panics. *)
Definition Uint32 (b : list byte) : outcome Z :=
  b3 ← index b 3;
  b0 ← index b 0;
  b1 ← index b 1;
  b2 ← index b 2;
  Ret (Z.lor (Z.lor (Z.lor (byte_to_Z b0)
                           (Z.shiftl (byte_to_Z b1) 8))
                    (Z.shiftl (byte_to_Z b2) 16))
             (Z.shiftl (byte_to_Z b3) 24)).

End LittleEndian.

(* ===================================================================== *)
(** ** consts.go *)
(* ===================================================================== *)

(** [type payloadType byte] *)
Definition payloadType : Type := byte.
Definition loginType : payloadType := x00.
Definition commandType : payloadType := x01.
Definition serverMessageType : payloadType := x02.

(** Optional embedded header type inside a [commandType] payload. *)
Definition multiPacketType : byte := x00.

(** [type loginResult byte] *)
Definition loginFailed : byte := x00.
Definition loginSuccess : byte := x01.

(* ===================================================================== *)
(** ** packet.go: the encoder *)
(* ===================================================================== *)

Module packet.

Record t : Type := mk {
  message : list byte;
  payloadType : payloadType;
  sequenceNumber : byte
}.

(** [payload] returns the packet payload. *)
Definition payload (p : t) : outcome (list byte) :=
  if decide (payloadType p = loginType) then
    Ret ([xff; payloadType p] ++ message p)
  else if decide (payloadType p = commandType) then
    Ret ([xff; payloadType p] ++ ([sequenceNumber p] ++ message p))
  else if decide (payloadType p = serverMessageType) then
    Ret ([xff; payloadType p] ++ [sequenceNumber p])
  else Fail ErrUnknownPacketType.

(** [header] returns the six-byte header for [payload]. *)
Definition header (payload : list byte) : list byte :=
  [x42; x45] ++ LittleEndian.PutUint32 (crc32.ChecksumIEEE payload).

(** [bytes] returns the packet as a byte string. *)
Definition bytes (p : t) : outcome (list byte) :=
  payload ← payload p;
  Ret (header payload ++ payload).

End packet.

Definition newLoginPacket (password : list byte) : packet.t :=
  packet.mk password loginType x00.

Definition newCommandPacket (command : list byte) (sequence : byte) : packet.t :=
  packet.mk command commandType sequence.

Definition newServerMessageAcknowledgePacket (sequence : byte) : packet.t :=
  packet.mk [] serverMessageType sequence.

(* ===================================================================== *)
(** ** parser.go: the decoder *)
(* ===================================================================== *)

(** The smallest possible packet size in bytes. *)
Definition minPacketSize : nat := 9.

Module commandResponse.
Record t : Type := mk {
  msg : list byte;
  seq : byte;
  multiSize : byte;
  multiIndex : byte;
  multi : bool
}.
End commandResponse.

Module serverMessage.
Record t : Type := mk {
  seq : byte;
  msg : list byte
}.
End serverMessage.

(** The dynamic type behind the [interface{}] that [parseResponse] returns. *)
Inductive response : Type :=
| LoginResponse (success : bool)
| CommandResponse (cr : commandResponse.t)
| ServerMessage (sm : serverMessage.t).

Definition loginResponse (raw : list byte) : outcome bool :=
  r ← index raw 0;
  if decide (r = loginFailed) then Ret false
  else if decide (r = loginSuccess) then Ret true
  else Fail ErrInvalidLoginResponse.

Definition newCommandResponse (raw : list byte) : outcome commandResponse.t :=
  seq ← index raw 0;
  rest ← slice_from raw 1;
  if decide (length rest = 0%nat) then
    Ret (commandResponse.mk [] seq x00 x00 false)
  else
    r1 ← index raw 1;
    if decide (r1 = multiPacketType) then
      size ← index raw 2;
      idx ← index raw 3;
      msg ← slice_from raw 4;
      Ret (commandResponse.mk msg seq size idx true)
    else
      msg ← slice_from raw 1;
      Ret (commandResponse.mk msg seq x00 x00 false).

Definition newServerMessage (raw : list byte) : outcome serverMessage.t :=
  seq ← index raw 0;
  msg ← slice_from raw 1;
  Ret (serverMessage.mk seq msg).

Definition parseResponse (raw : list byte) : outcome response :=
  if decide (length raw < minPacketSize)%nat then Fail ErrInvalidPacketSize else
  magic ← slice raw 0 2;
  if decide (magic ≠ [x42; x45]) then Fail ErrInvalidHeader else
  eoh ← index raw 6;
  if decide (eoh ≠ xff) then Fail ErrInvalidEndOfHeader else
  payload ← slice_from raw 6;
  field ← slice raw 2 6;
  stored ← LittleEndian.Uint32 field;
  if decide (crc32.ChecksumIEEE payload ≠ stored) then Fail ErrInvalidChecksum else
  ty ← index raw 7;
  if decide (ty = loginType) then
    body ← slice_from raw 8; LoginResponse <$> loginResponse body
  else if decide (ty = commandType) then
    body ← slice_from raw 8; CommandResponse <$> newCommandResponse body
  else if decide (ty = serverMessageType) then
    body ← slice_from raw 8; ServerMessage <$> newServerMessage body
  else Fail ErrUnknownPacketType.

(** Encoding a packet and decoding the bytes it yields. *)
Definition roundtrip (p : packet.t) : outcome response :=
  raw ← packet.bytes p; parseResponse raw.

(** The CRC32 field of a datagram (bytes 2 to 5, little-endian) and the
    CRC32 computed over its payload (byte 6 onwards). *)
Definition storedChecksum (raw : list byte) : outcome Z :=
  LittleEndian.Uint32 (take 4 (drop 2 raw)).

Definition payloadChecksum (raw : list byte) : Z :=
  crc32.ChecksumIEEE (drop 6 raw).

(** Datagrams and packets of the repository's tests (parser_test.go,
    packet_test.go). *)
Definition invalidHeaderDatagram : list byte :=
  [x47; x47; x00; x00; x00; x00; x00; x00; x00].

Definition invalidChecksumDatagram : list byte :=
  [x42; x45; x00; x23; x00; x85; xff; x00; x00].

Definition secret : list byte :=
  ["s"; "e"; "c"; "r"; "e"; "t"]%byte.

Definition doSomething : list byte :=
  ["d"; "o"; " "; "s"; "o"; "m"; "e"; "t"; "h"; "i"; "n"; "g"]%byte.

(** A command response whose body after the sequence byte is the single
    byte 0x00: header "BE", CRC32 0xfe83b3da of the payload, 0xFF, type 1,
    sequence 0, 0x00. *)
Definition shortMultiDatagram : list byte :=
  [x42; x45; xda; xb3; x83; xfe; xff; x01; x00; x00].

(* ===================================================================== *)
(** ** parser.go: the fragment reassembler *)
(* ===================================================================== *)

Module fragmentedResponse.

(** A command response sent in several packets: the indices still
    expected, and one slot per part. *)
Record t : Type := mk {
  expected : gset byte;
  parts : list (list byte)
}.

(** [add] stores the partial message at the part index of [cr]; the
    slice assignment panics when the index is not below [len(parts)]. *)
Definition add (fm : t) (cr : commandResponse.t) : outcome t :=
  let i := byte_to_nat (commandResponse.multiIndex cr) in
  if decide (i < length (parts fm))%nat then
    Ret (mk (expected fm ∖ {[commandResponse.multiIndex cr]})
            (<[i := commandResponse.msg cr]> (parts fm)))
  else Panic.

(** [completed] is true when all parts have been added. *)
Definition completed (fm : t) : bool :=
  bool_decide (size (expected fm) = 0%nat).

(** [message] joins the parts in slot order. *)
Definition message (fm : t) : list byte := concat (parts fm).

End fragmentedResponse.

(** [newFragmentedResponse]: the loop [for i := byte(0); i < size; i++]
    marks every index below [size] as expected; the slots start empty. *)
Definition newFragmentedResponse (size : byte) : fragmentedResponse.t :=
  fragmentedResponse.mk
    (fold_left (fun m i => {[ byte_of_nat i ]} ∪ m)
               (seq 0 (byte_to_nat size)) ∅)
    (replicate (byte_to_nat size) []).

(* ===================================================================== *)
(** ** client.go, client_config_options.go, done.go *)
(* ===================================================================== *)

(** Durations in nanoseconds. *)
Definition second : Z := 1000000000.
Definition defaultTimeout : Z := 10 * second.
Definition defaultKeepAlive : Z := 30 * second.
Definition defaultMessageBufferSize : Z := 100.

(** What the model keeps of a [net.Conn]: whether it has been closed. *)
Inductive connState : Type := ConnOpen | ConnClosed.

(** [conn.Close()]: closing a connection twice is an error of the net
    package. *)
Definition conn_Close (k : connState) : connState * option error :=
  match k with
  | ConnOpen => (ConnClosed, None)
  | ConnClosed => (ConnClosed, Some (ErrNet 0))
  end.

(** A buffered channel of strings: its capacity and whether it is closed. *)
Record chan : Type := mkChan {
  cap : Z;
  closed : bool
}.

(** [close(ch)] panics on a nil channel and on a closed one. *)
Definition close_chan (ch : option chan) : outcome chan :=
  match ch with
  | None => Panic
  | Some ch => if closed ch then Panic else Ret (mkChan (cap ch) true)
  end.

(** The client.  Pointer and interface fields are [None] while nil.  The
    [done] field holds what [IsDone] reports.  A nil [fragments] map reads
    as the empty map; it is allocated before the receiver, its only
    writer, is started. *)
Record Client : Type := mkClient {
  conn : option connState;
  ctr : Z;
  timeout : Z;
  keepAlive : Z;
  msgBufSize : Z;
  fragments : gmap byte fragmentedResponse.t;
  lastSend : Z;
  done : option bool;
  msgs : option chan
}.

Definition set_conn (v : option connState) (c : Client) : Client :=
  mkClient v (ctr c) (timeout c) (keepAlive c) (msgBufSize c) (fragments c)
           (lastSend c) (done c) (msgs c).
Definition set_ctr (v : Z) (c : Client) : Client :=
  mkClient (conn c) v (timeout c) (keepAlive c) (msgBufSize c) (fragments c)
           (lastSend c) (done c) (msgs c).
Definition set_timeout (v : Z) (c : Client) : Client :=
  mkClient (conn c) (ctr c) v (keepAlive c) (msgBufSize c) (fragments c)
           (lastSend c) (done c) (msgs c).
Definition set_keepAlive (v : Z) (c : Client) : Client :=
  mkClient (conn c) (ctr c) (timeout c) v (msgBufSize c) (fragments c)
           (lastSend c) (done c) (msgs c).
Definition set_msgBufSize (v : Z) (c : Client) : Client :=
  mkClient (conn c) (ctr c) (timeout c) (keepAlive c) v (fragments c)
           (lastSend c) (done c) (msgs c).
Definition set_fragments (v : gmap byte fragmentedResponse.t) (c : Client) : Client :=
  mkClient (conn c) (ctr c) (timeout c) (keepAlive c) (msgBufSize c) v
           (lastSend c) (done c) (msgs c).
Definition set_lastSend (v : Z) (c : Client) : Client :=
  mkClient (conn c) (ctr c) (timeout c) (keepAlive c) (msgBufSize c) (fragments c)
           v (done c) (msgs c).
Definition set_done (v : option bool) (c : Client) : Client :=
  mkClient (conn c) (ctr c) (timeout c) (keepAlive c) (msgBufSize c) (fragments c)
           (lastSend c) v (msgs c).
Definition set_msgs (v : option chan) (c : Client) : Client :=
  mkClient (conn c) (ctr c) (timeout c) (keepAlive c) (msgBufSize c) (fragments c)
           (lastSend c) (done c) v.

(** [type Option func(c *Client) error]: an option updates the client or
    returns an error. *)
Definition Option : Type := Client -> outcome Client.

Definition Timeout (timeout : Z) : Option :=
  fun c => Ret (set_timeout timeout c).

Definition KeepAlive (interval : Z) : Option :=
  fun c => Ret (set_keepAlive interval c).

Definition MessageBuffer (size : Z) : Option :=
  fun c => if decide (size < 1) then Fail ErrInvalidMessageBufferSize
           else Ret (set_msgBufSize size c).

(** The options this package provides, as entries of the variadic
    argument of [NewClient]; and those among them that set a duration. *)
Inductive packageOption : option Option -> Prop :=
| package_Timeout (timeout : Z) : packageOption (Some (Timeout timeout))
| package_KeepAlive (interval : Z) : packageOption (Some (KeepAlive interval))
| package_MessageBuffer (size : Z) : packageOption (Some (MessageBuffer size)).

Inductive timingOption : option Option -> Prop :=
| timing_Timeout (timeout : Z) : timingOption (Some (Timeout timeout))
| timing_KeepAlive (interval : Z) : timingOption (Some (KeepAlive interval)).

(** done.go: the done channel is represented by whether it is closed. *)
Definition done_IsDone (d : bool) : bool := d.
Definition done_Done (d : bool) : bool := if d then d else true.

(** [seq] returns the command sequence number: [byte(ctr)]. *)
Definition Client_seq (c : Client) : byte := byte_of_Z (ctr c).

(** [incr] adds one to the [uint64] counter. *)
Definition incr (c : Client) : Client :=
  set_ctr ((ctr c + 1) mod 2 ^ 64) c.

(** [handleCommandResponse]: the new client state and what is sent on the
    [cmds] channel, if anything.  The map holds pointers, so the entry
    sees what [add] stores. *)
Definition handleCommandResponse (c : Client) (r : commandResponse.t)
  : outcome (Client * option (list byte)) :=
  if decide (commandResponse.seq r ≠ Client_seq c) then Ret (c, None)
  else if negb (commandResponse.multi r) then
    Ret (incr c, Some (commandResponse.msg r))
  else
    let fr :=
      match fragments c !! commandResponse.seq r with
      | Some fr => fr
      | None => newFragmentedResponse (commandResponse.multiSize r)
      end in
    fr ← fragmentedResponse.add fr r;
    let c := set_fragments (<[commandResponse.seq r := fr]> (fragments c)) c in
    if fragmentedResponse.completed fr then
      Ret (incr c, Some (fragmentedResponse.message fr))
    else Ret (c, None).

(** [write]: the bytes put on the wire.  [io] is the error, if any, of
    setting the deadline or of writing to the socket. *)
Definition write (c : Client) (pkt : packet.t) (io : option error)
  : outcome (list byte) :=
  raw ← packet.bytes pkt;
  match conn c with
  | None => Panic
  | Some _ => match io with Some e => Fail e | None => Ret raw end
  end.

(** Which case of the [select] in [send] fires. *)
Inductive sendEvent : Type :=
| SendTimer
| SendErrs (e : error)
| SendCmds (resp : list byte).

(** [send]: writes the command stamped with the current sequence number,
    records the time and waits. *)
Definition send (c : Client) (cmd : list byte) (now : Z) (io : option error)
    (ev : sendEvent) : Client * outcome (list byte) :=
  match write c (newCommandPacket cmd (Client_seq c)) io with
  | Ret _ =>
      (set_lastSend now c,
       match ev with
       | SendTimer => Fail ErrTimeout
       | SendErrs e => Fail e
       | SendCmds resp => Ret resp
       end)
  | Fail e => (c, Fail e)
  | Panic => (c, Panic)
  end.

(** [Close]: the new client state and the returned error.

    [c.wg.Wait()] returns once the goroutines of the client have
    returned.  [keepConnectionAlive] leaves its loop at its next turn.
    [receiver], which [connect] starts as soon as the socket is dialled,
    tests done at the top of its loop only: it returns unless it is
    blocked in a send on [login], [errs] or [cmds] (all unbuffered) that
    nobody takes, and then [Wait] never returns.  [stuck] says whether the
    receiver is blocked in that way; while [conn] is nil no goroutine has
    been started. *)
Definition Close (c : Client) (stuck : bool)
  : completion (Client * option error) :=
  match done c with
  | None => Returns Panic
  | Some d =>
      if done_IsDone d then Returns (Ret (c, None))
      else
        let c := set_done (Some (done_Done d)) c in
        if stuck && bool_decide (conn c ≠ None) then Blocks
        else
          Returns
            (ch ← close_chan (msgs c);
             let c := set_msgs (Some ch) c in
             match conn c with
             | None => Panic
             | Some k =>
                 let '(k, err) := conn_Close k in
                 Ret (set_conn (Some k) c, err)
             end)
  end.

(** Which case of the [select] in [connect] fires. *)
Inductive connectEvent : Type :=
| ConnectTimer
| ConnectErrs (e : error)
| ConnectLogin (success : bool).

(** What a client meets while it is opened: the results of dialling and
    of writing the login packet, the case of the [select] in [connect],
    the largest capacity [make(chan string, n)] serves (it panics when [n]
    is negative or larger than the runtime can allocate), and whether the
    receiver is blocked in a send when [NewClient] closes the client
    again. *)
Record network : Type := mkNetwork {
  dial : option error;
  loginWrite : option error;
  loginSelect : connectEvent;
  chanLimit : Z;
  receiverStuck : bool
}.

(** [connect]: dials, writes the login packet and waits for its outcome. *)
Definition connect (c : Client) (pwd : list byte) (net : network)
  : Client * outcome unit :=
  match dial net with
  | Some e => (set_conn None c, Fail e)
  | None =>
      let c := set_conn (Some ConnOpen) c in
      match write c (newLoginPacket pwd) (loginWrite net) with
      | Fail e => (c, Fail e)
      | Panic => (c, Panic)
      | Ret _ =>
          match loginSelect net with
          | ConnectTimer => (c, Fail ErrTimeout)
          | ConnectErrs e => (c, Fail e)
          | ConnectLogin success =>
              if success then (c, Ret tt) else (c, Fail ErrLoginFailed)
          end
      end
  end.

(** The loop over the options in [NewClient]; a nil option is [None]. *)
Fixpoint applyOptions (options : list (option Option)) (c : Client)
  : outcome Client :=
  match options with
  | [] => Ret c
  | None :: _ => Fail ErrNilOption
  | Some opt :: options => c ← opt c; applyOptions options c
  end.

(** The client [NewClient] starts from: the defaults, everything else
    zero or nil. *)
Definition defaultClient : Client :=
  mkClient None 0 defaultTimeout defaultKeepAlive defaultMessageBufferSize
           ∅ 0 None None.

(** The allocations of [NewClient] between the options and [connect]: the
    done channel, the [msgs] channel with capacity [msgBufSize], and the
    fragment map (the unbuffered [login], [cmds] and [errs] channels carry
    no state). *)
Definition allocate (c : Client) : Client :=
  let c := set_done (Some false) c in
  let c := set_msgs (Some (mkChan (msgBufSize c) false)) c in
  set_fragments ∅ c.

(** [NewClient]: the options in turn, the allocations, [connect]; when
    [connect] fails the client is closed and the error of [connect]
    returned. *)
Definition NewClient (pwd : list byte) (options : list (option Option))
    (net : network) : completion Client :=
  match applyOptions options defaultClient with
  | Ret c =>
      if decide (0 <= msgBufSize c <= chanLimit net) then
        let c := allocate c in
        match connect c pwd net with
        | (c, Ret _) => Returns (Ret c)
        | (c, Fail e) =>
            match Close c (receiverStuck net) with
            | Blocks => Blocks
            | Returns Panic => Returns Panic
            | Returns _ => Returns (Fail e)
            end
        | (_, Panic) => Returns Panic
        end
      else Returns Panic
  | Fail e => Returns (Fail e)
  | Panic => Returns Panic
  end.

(** One step of a client in use: the dispatcher sends a command, or the
    receiver handles a command response.  The second component lists what
    the step publishes on [cmds]. *)
Inductive action : Type :=
| Send (cmd : list byte) (now : Z) (io : option error) (ev : sendEvent)
| Receive (r : commandResponse.t).

Definition step (c : Client) (a : action)
  : outcome (Client * list (list byte)) :=
  match a with
  | Send cmd now io ev =>
      match send c cmd now io ev with
      | (_, Panic) => Panic
      | (c, _) => Ret (c, [])
      end
  | Receive r =>
      '(c, out) ← handleCommandResponse c r;
      Ret (c, match out with Some m => [m] | None => [] end)
  end.

Fixpoint run (c : Client) (trace : list action)
  : outcome (Client * list (list byte)) :=
  match trace with
  | [] => Ret (c, [])
  | a :: trace =>
      '(c, out) ← step c a;
      '(c, outs) ← run c trace;
      Ret (c, out ++ outs)
  end.

(* ===================================================================== *)
(** ** Multi-packet replies and the scenarios of the tests *)
(* ===================================================================== *)

(** client_test.go: [createMultiResponse] builds the datagram of one part
    of a multi-packet command response. *)
Definition createMultiResponse (message : list byte) (seq max current : byte)
  : list byte :=
  let multiHeader := [x00; max; current] in
  let payload := ([xff; commandType; seq] ++ multiHeader) ++ message in
  let header := [x42; x45] ++ LittleEndian.PutUint32 (crc32.ChecksumIEEE payload) in
  header ++ payload.

(** Part [i] of the reply whose parts are [bodies], under sequence number
    [s], once decoded. *)
Definition replyPart (s : byte) (bodies : list (list byte)) (i : nat)
  : commandResponse.t :=
  commandResponse.mk (default [] (bodies !! i)) s
                     (byte_of_nat (length bodies)) (byte_of_nat i) true.

(** The parts of a reply arriving in the given order. *)
Definition arrival (s : byte) (bodies : list (list byte)) (order : list nat)
  : list action :=
  (fun i => Receive (replyPart s bodies i)) <$> order.

(** The reassembly entry the client uses for sequence number [s]: the one
    in the fragment map, or a new one for [k] parts. *)
Definition entry (c : Client) (s : byte) (k : nat) : fragmentedResponse.t :=
  default (newFragmentedResponse (byte_of_nat k)) (fragments c !! s).

(** An entry that has taken the parts [fed] of the reply [bodies] and
    nothing else: the other indices are missing and their slots empty. *)
Definition holds (bodies : list (list byte)) (fed : list nat)
    (fm : fragmentedResponse.t) : Prop :=
  length (fragmentedResponse.parts fm) = length bodies
  /\ (∀ b, (b ∈ fragmentedResponse.expected fm)
           <-> (∃ i, (i < length bodies)%nat /\ (i ∉ fed) /\ b = byte_of_nat i))
  /\ (∀ j, (j < length bodies)%nat ->
           fragmentedResponse.parts fm !! j
           = Some (if decide (j ∈ fed) then default [] (bodies !! j) else [])).

(** A single-packet reply with an empty body, as a keep-alive gets. *)
Definition emptyReply (s : nat) : action :=
  Receive (commandResponse.mk [] (byte_of_nat s) x00 x00 false).

(** Two replies of two parts each, and the exchanges that take the
    sequence number from 0 once around to 0 again: the first reply under
    sequence number 0, then 255 exchanges with empty replies under the
    sequence numbers 1 to 255. *)
Definition firstReply : list (list byte) := [["a"%byte]; ["b"%byte]].
Definition secondReply : list (list byte) := [["c"%byte]; ["d"%byte]].

Definition onceAround : list action :=
  arrival x00 firstReply [0; 1]%nat ++ (emptyReply <$> seq 1 255).

(** A client with the default options whose socket is dialled: the state
    [connect] leaves behind, whether the login then succeeds or not. *)
Definition connectedClient : Client :=
  set_conn (Some ConnOpen) (allocate defaultClient).

(** A network on which dialling, the login write and the login succeed;
    the runtime serves channels of up to 2^31 strings. *)
Definition friendlyNetwork : network :=
  mkNetwork None None (ConnectLogin true) (2 ^ 31) false.

(** A network on which the server rejects the password. *)
Definition rejectingNetwork : network :=
  mkNetwork None None (ConnectLogin false) (2 ^ 31) false.

(** A network on which the address cannot be dialled. *)
Definition unreachableNetwork : network :=
  mkNetwork (Some (ErrNet 1)) None ConnectTimer (2 ^ 31) false.

(** A network on which the login result arrives after the timer of
    [connect] has fired: the receiver is blocked in its send on [login]. *)
Definition lateNetwork : network :=
  mkNetwork None None ConnectTimer (2 ^ 31) true.
(* ===================================================================== *)
(** ** client_test.go: the datagrams of the mock server *)
(* ===================================================================== *)

(** [fmt.Sprintf("%v", b)] for a byte: its decimal digits. *)
Definition formatByte (b : byte) : list byte :=
  let n := byte_to_nat b in
  let digit (d : nat) := byte_of_nat (48 + d) in
  if (n <? 10)%nat then [digit n]
  else if (n <? 100)%nat then [digit (n / 10)%nat; digit (n mod 10)%nat]
  else [digit (n / 100)%nat; digit (n / 10 mod 10)%nat; digit (n mod 10)%nat].

Definition testServerMessage : list byte :=
  ["s"; "e"; "r"; "v"; "e"; "r"; " ";
   "b"; "r"; "o"; "a"; "d"; "c"; "a"; "s"; "t"]%byte.

(** [createServerMessage] creates a server message packet whose text is
    [testServerMessage], a space and the sequence number in decimal. *)
Definition createServerMessage (seq : byte) : list byte :=
  let message := testServerMessage ++ [" "%byte] ++ formatByte seq in
  let payload := [xff; serverMessageType; seq] ++ message in
  let header := [x42; x45] ++ LittleEndian.PutUint32 (crc32.ChecksumIEEE payload) in
  header ++ payload.

(* ===================================================================== *)
(** ** Reassembly entries in use *)
(* ===================================================================== *)

(** An entry taking a series of fragments, as [handleCommandResponse]
    feeds them to it one by one. *)
Fixpoint addAll (fm : fragmentedResponse.t) (crs : list commandResponse.t)
  : outcome fragmentedResponse.t :=
  match crs with
  | [] => Ret fm
  | cr :: crs => fm ← fragmentedResponse.add fm cr; addAll fm crs
  end.

(** The part indices a series of fragments carries. *)
Definition received (crs : list commandResponse.t) : gset byte :=
  list_to_set (commandResponse.multiIndex <$> crs).

(* ===================================================================== *)
(** ** client.go: the receiver *)
(* ===================================================================== *)

(** The size of the read buffer, based on the MTU. *)
Definition bufferSize : nat := 1500.

(** The non-blocking send [select { case ch <- m: default: }] on a buffered
    channel that holds [buffered]: the message is queued when there is
    room and dropped otherwise; a nil channel is never ready, a closed one
    panics. *)
Definition trySend (ch : option chan) (buffered : list (list byte))
    (m : list byte) : outcome (list (list byte)) :=
  match ch with
  | None => Ret buffered
  | Some ch =>
      if closed ch then Panic
      else if decide (Z.of_nat (length buffered) < cap ch)
           then Ret (buffered ++ [m])
           else Ret buffered
  end.

(** [handleServerMessage]: what the [msgs] channel holds afterwards, and
    the acknowledgement put on the wire (none when the write fails: the
    error is ignored). *)
Definition handleServerMessage (c : Client) (buffered : list (list byte))
    (r : serverMessage.t) (io : option error)
  : outcome (list (list byte) * list (list byte)) :=
  buffered ← trySend (msgs c) buffered (serverMessage.msg r);
  match write c (newServerMessageAcknowledgePacket (serverMessage.seq r)) io with
  | Ret raw => Ret (buffered, [raw])
  | Fail _ => Ret (buffered, [])
  | Panic => Panic
  end.

(** What one read of the socket brings: a timeout, another error of the
    net package, or a datagram. *)
Inductive readResult : Type :=
| ReadTimeout
| ReadError (e : error)
| ReadDatagram (datagram : list byte).

(** What [read] returns: a timeout of the net package, another error, or
    a parsed response. *)
Inductive readValue : Type :=
| TimedOut
| Errored (e : error)
| Parsed (r : response).

(** [read]: at most [bufferSize] bytes of the datagram are read and
    parsed. *)
Definition read (c : Client) (rd : readResult) : outcome readValue :=
  match conn c with
  | None => Panic
  | Some _ =>
      match rd with
      | ReadTimeout => Ret TimedOut
      | ReadError e => Ret (Errored e)
      | ReadDatagram datagram =>
          match parseResponse (take bufferSize datagram) with
          | Ret r => Ret (Parsed r)
          | Fail e => Ret (Errored e)
          | Panic => Panic
          end
      end
  end.

(** What the receiver sends: an error on [errs], a login result on
    [login], a reply on [cmds], or a datagram on the wire. *)
Inductive signal : Type :=
| OnErrs (e : error)
| OnLogin (success : bool)
| OnCmds (resp : list byte)
| OnWire (raw : list byte).

(** [errs], [login] and [cmds] are unbuffered: a send on one of them
    blocks until another goroutine takes the value. *)
Definition blocks (s : signal) : bool :=
  match s with
  | OnWire _ => false
  | _ => true
  end.

(** Where the receiver stands after its reads: at the top of its loop,
    returned because done was set, or blocked for ever in a send that
    nobody takes. *)
Inductive standing : Type :=
| AtLoop
| Returned
| BlockedIn (s : signal).

(** The send of a turn in which the receiver stays blocked: [taken] says
    whether another goroutine takes what the turn sends. *)
Definition untaken (taken : bool) (out : list signal) : option signal :=
  if taken then None else List.find blocks out.

(** The type switch of [receiver]: a login result goes to [login], a
    command response to [handleCommandResponse], a server message to
    [handleServerMessage]. *)
Definition route (c : Client) (buffered : list (list byte)) (r : response)
    (io : option error)
  : outcome (Client * list (list byte) * list signal) :=
  match r with
  | LoginResponse success => Ret (c, buffered, [OnLogin success])
  | CommandResponse cr =>
      '(c, out) ← handleCommandResponse c cr;
      Ret (c, buffered, match out with Some m => [OnCmds m] | None => [] end)
  | ServerMessage sm =>
      '(buffered, wire) ← handleServerMessage c buffered sm io;
      Ret (c, buffered, map OnWire wire)
  end.

(** One turn of the loop of [receiver], past the done check: the client,
    the broadcast queue and what the turn sends. *)
Definition receiverStep (c : Client) (buffered : list (list byte))
    (rd : readResult) (io : option error)
  : outcome (Client * list (list byte) * list signal) :=
  v ← read c rd;
  match v with
  | TimedOut => Ret (c, buffered, [])
  | Errored e => Ret (c, buffered, [OnErrs e])
  | Parsed r => route c buffered r io
  end.

(** [receiver] over the reads the socket brings, each with the result of
    the write an acknowledgement would make and with whether what the
    turn sends on [errs], [login] or [cmds] is taken.  The loop ends when
    done is set; in a send that nobody takes the receiver stays for ever,
    with what the turn did to the client before the send already done.
    The result lists what was sent and taken, in order. *)
Fixpoint receiver (c : Client) (buffered : list (list byte))
    (reads : list (readResult * option error * bool))
  : outcome (Client * list (list byte) * list signal * standing) :=
  match reads with
  | [] => Ret (c, buffered, [], AtLoop)
  | (rd, io, taken) :: reads =>
      match done c with
      | None => Panic
      | Some true => Ret (c, buffered, [], Returned)
      | Some false =>
          '(c, buffered, out) ← receiverStep c buffered rd io;
          match untaken taken out with
          | Some s => Ret (c, buffered, [], BlockedIn s)
          | None =>
              '(c, buffered, outs, st) ← receiver c buffered reads;
              Ret (c, buffered, out ++ outs, st)
          end
      end
  end.



(** The datagrams of a multi-packet reply, as [createMultiResponse] builds
    them, read in the given order; [taken] says whether a goroutine is
    waiting for the reply. *)
Definition replyDatagrams (s : byte) (bodies : list (list byte))
    (order : list nat) (taken : bool)
  : list (readResult * option error * bool) :=
  (fun i => (ReadDatagram
               (createMultiResponse (default [] (bodies !! i)) s
                  (byte_of_nat (length bodies)) (byte_of_nat i)),
             None, taken)) <$> order.

(* ===================================================================== *)
(** ** client.go: Exec and the keep-alive *)
(* ===================================================================== *)

#[global] Instance error_eq_decision : EqDecision error.
Proof. solve_decision. Defined.

(** The maximum duration after which the client counts as disconnected. *)
Definition clientTimeout : Z := 45 * second.

(** What one turn of the loop of [Exec] meets: the clock when the loop
    condition is tested, and for the [send] that follows the time it
    records, the result of its write and the case of its [select]. *)
Record attempt : Type := mkAttempt {
  clock : Z;
  stamp : Z;
  io : option error;
  ev : sendEvent
}.

(** The loop of [Exec] from its turn [n] on: a turn that starts before
    [until] sends; a send that returns [ErrTimeout] is retried, any other
    result is returned; a turn that starts at [until] or later ends the
    loop with [ErrTimeout].  [None] when [fuel] turns were not enough. *)
Fixpoint retry (fuel : nat) (c : Client) (cmd : list byte) (until : Z)
    (turns : nat -> attempt) (n : nat) : option (Client * outcome (list byte)) :=
  match fuel with
  | O => None
  | S fuel =>
      let a := turns n in
      if decide (clock a < until) then
        match send c cmd (stamp a) (io a) (ev a) with
        | (c, Fail e) =>
            if decide (e = ErrTimeout) then retry fuel c cmd until turns (S n)
            else Some (c, Fail e)
        | (c, r) => Some (c, r)
        end
      else Some (c, Fail ErrTimeout)
  end.

(** [Exec], entered at time [start]. *)
Definition Exec (fuel : nat) (c : Client) (cmd : list byte) (start : Z)
    (turns : nat -> attempt) : option (Client * outcome (list byte)) :=
  retry fuel c cmd (start + clientTimeout) turns 0.



(** A clock that starts at 0 and advances ten seconds per turn, with
    every send timing out but the one of turn [answered], which gets the
    reply "secret". *)
Definition tenSecondTurns (answered : nat) (n : nat) : attempt :=
  mkAttempt (Z.of_nat n * 10 * second) (Z.of_nat n * 10 * second + 1) None
            (if decide (n = answered) then SendCmds secret else SendTimer).


(* ===================================================================== *)
(** ** client_test.go: the message handlers of the mock server *)
(* ===================================================================== *)

(** [strings.Split(s, sep)] for a separator of one byte: the pieces
    between the separators, one more than there are separators. *)
Fixpoint Split (s : list byte) (sep : byte) : list (list byte) :=
  match s with
  | [] => [[]]
  | b :: s =>
      if decide (b = sep) then [] :: Split s sep
      else match Split s sep with
           | piece :: pieces => (b :: piece) :: pieces
           | [] => [[b]]
           end
  end.

Definition star : byte := "*"%byte.

Definition responseTo : list byte :=
  ["R"; "e"; "s"; "p"; "o"; "n"; "s"; "e"; " "; "t"; "o"; ":"; " "]%byte.

Definition duplicateMark : list byte :=
  [" "; "("; "d"; "u"; "p"; "l"; "i"; "c"; "a"; "t"; "e"; ")"]%byte.

Module multiResponse.
Record t : Type := mk {
  Index : nat;
  Message : list byte
}.
End multiResponse.

Module server.

(** The fields the message handlers use.  The two channels have capacity
    one: [multiRespCh] holds a message or nothing, [duplicateCh] a token
    or nothing.  The counters are [int64]. *)
Record t : Type := mk {
  pwd : list byte;
  keepAliveCounter : Z;
  srvMsgAckCounter : Z;
  multiRespCh : option (list byte);
  duplicateCh : bool
}.

(** [atomic.AddInt64(&v, 1)] *)
Definition addInt64 (v : Z) : Z := (v + 1 + 2 ^ 63) mod 2 ^ 64 - 2 ^ 63.

Definition incrKeepAlive (s : t) : t :=
  mk (pwd s) (addInt64 (keepAliveCounter s)) (srvMsgAckCounter s)
     (multiRespCh s) (duplicateCh s).

Definition incrSrvMsgAck (s : t) : t :=
  mk (pwd s) (keepAliveCounter s) (addInt64 (srvMsgAckCounter s))
     (multiRespCh s) (duplicateCh s).

Definition set_multiRespCh (v : option (list byte)) (s : t) : t :=
  mk (pwd s) (keepAliveCounter s) (srvMsgAckCounter s) v (duplicateCh s).

Definition set_duplicateCh (v : bool) (s : t) : t :=
  mk (pwd s) (keepAliveCounter s) (srvMsgAckCounter s) (multiRespCh s) v.

(** What a handler leaves: the server, the datagrams written to the
    client and the error returned ([Ret tt] for nil). *)
Definition reaction : Type := t * list (list byte) * outcome unit.

(** [sendBytes]: [wr] is the error of [WriteTo], if any. *)
Definition sendBytes (b : list byte) (wr : option error)
  : list (list byte) * outcome unit :=
  match wr with
  | Some e => ([], Fail e)
  | None => ([b], Ret tt)
  end.

Definition sendPacket (p : packet.t) (wr : option error)
  : list (list byte) * outcome unit :=
  match packet.bytes p with
  | Ret b => sendBytes b wr
  | Fail e => ([], Fail e)
  | Panic => ([], Panic)
  end.

(** [handleLoginMessage] checks the password in the message and sends a
    login success or failed message accordingly. *)
Definition handleLoginMessage (s : t) (b : list byte) (wr : nat -> option error)
  : reaction :=
  match slice_from b 8 with
  | Ret pwd' =>
      let message := if decide (pwd' = pwd s) then [x01] else [x00] in
      let '(sent, err) := sendPacket (packet.mk message loginType x00) (wr 0%nat) in
      (s, sent, err)
  | Fail e => (s, [], Fail e)
  | Panic => (s, [], Panic)
  end.

(** The loop of [handleCommandMessage] over [rand.Perm]: the parts are
    sent in the order given, up to the first write that fails; write [k]
    is the next one. *)
Fixpoint sendParts (messages : list multiResponse.t) (seq max : byte)
    (order : list nat) (wr : nat -> option error) (k : nat)
  : list (list byte) * outcome unit :=
  match order with
  | [] => ([], Ret tt)
  | i :: order =>
      match messages !! i with
      | None => ([], Panic)
      | Some m =>
          let pb := createMultiResponse (multiResponse.Message m) seq max
                      (byte_of_nat (multiResponse.Index m)) in
          match sendBytes pb (wr k) with
          | (sent, Ret _) =>
              let '(rest, err) := sendParts messages seq max order wr (S k) in
              (sent ++ rest, err)
          | (sent, err) => (sent, err)
          end
      end
  end.

(** [handleCommandMessage] responds to command type messages; [perm] is
    what [rand.Perm] returns. *)
Definition handleCommandMessage (s : t) (b : list byte) (perm : list nat)
    (wr : nat -> option error) : reaction :=
  match index b 8 with
  | Ret seq =>
      if decide (length b = minPacketSize) then
        let s := incrKeepAlive s in
        let '(sent, err) := sendPacket (packet.mk [] commandType seq) (wr 0%nat) in
        (s, sent, err)
      else
        match multiRespCh s with
        | Some msg =>
            let s := set_multiRespCh None s in
            let parts := Split msg star in
            let messages := imap multiResponse.mk parts in
            let '(sent, err) :=
              sendParts messages seq (byte_of_nat (length parts)) perm wr 0 in
            (s, sent, err)
        | None =>
            match slice_from b 9 with
            | Ret rest =>
                let p := packet.mk (responseTo ++ rest) commandType seq in
                match sendPacket p (wr 0%nat) with
                | (sent, Ret _) =>
                    if duplicateCh s then
                      let s := set_duplicateCh false s in
                      let p := packet.mk (packet.message p ++ duplicateMark)
                                 commandType seq in
                      let '(again, err) := sendPacket p (wr 1%nat) in
                      (s, sent ++ again, err)
                    else (s, sent, Ret tt)
                | (sent, err) => (s, sent, err)
                end
            | Fail e => (s, [], Fail e)
            | Panic => (s, [], Panic)
            end
        end
  | Fail e => (s, [], Fail e)
  | Panic => (s, [], Panic)
  end.

(** [handleMessage] determines the type of the message and handles it
    accordingly. *)
Definition handleMessage (s : t) (b : list byte) (perm : list nat)
    (wr : nat -> option error) : reaction :=
  if decide (length b < minPacketSize)%nat then (s, [], Fail ErrInvalidPacketSize)
  else
    match index b 7 with
    | Ret ty =>
        if decide (ty = loginType) then handleLoginMessage s b wr
        else if decide (ty = commandType) then handleCommandMessage s b perm wr
        else if decide (ty = serverMessageType) then (incrSrvMsgAck s, [], Ret tt)
        else (s, [], Fail ErrUnknownPacketType)
    | Fail e => (s, [], Fail e)
    | Panic => (s, [], Panic)
    end.

(** [newServer]: the counters at zero and both channels empty. *)
Definition newServer (pwd : list byte) : t := mk pwd 0 0 None false.

(** [SetMultiPacketResponse] and [SetDuplicatedResponse] put a value on
    their channel; on a full channel they block ([None]). *)
Definition SetMultiPacketResponse (message : list byte) (s : t) : option t :=
  match multiRespCh s with
  | None => Some (set_multiRespCh (Some message) s)
  | Some _ => None
  end.

Definition SetDuplicatedResponse (s : t) : option t :=
  if duplicateCh s then None else Some (set_duplicateCh true s).

End server.

(** The reads of a client's socket that a list of datagrams gives, each
    with a write that succeeds should an acknowledgement be due, and with
    a goroutine waiting for what the receiver sends. *)
Definition arrive (datagrams : list (list byte))
  : list (readResult * option error * bool) :=
  (fun d => (ReadDatagram d, None, true)) <$> datagrams.

(** Writes that all succeed. *)
Definition reliable : nat -> option error := fun _ => None.

(* ===================================================================== *)
(** * Properties *)
(* ===================================================================== *)

(** A check of the form [x ≠ x] does not fire. *)
Ltac check_passes :=
  let H := fresh in rewrite decide_False by (intros H; now apply H).

(** ** Bytes and 32-bit words *)

Lemma byte_to_Z_range (b : byte) : 0 <= byte_to_Z b < 256.
Proof.
  unfold byte_to_Z. pose proof (Byte.to_N_bounded b). lia.
Qed.

Lemma byte_to_Z_of_Z (v : Z) : byte_to_Z (byte_of_Z v) = v mod 256.
Proof.
  unfold byte_to_Z, byte_of_Z.
  pose proof (Z.mod_pos_bound v 256 ltac:(lia)) as Hm.
  destruct (Byte.of_N (Z.to_N (v mod 256))) as [b|] eqn:E.
  - apply Byte.to_of_N in E. rewrite E. lia.
  - apply Byte.of_N_None_iff in E. lia.
Qed.

Lemma byte_of_Z_to_Z (b : byte) : byte_of_Z (byte_to_Z b) = b.
Proof.
  unfold byte_of_Z. rewrite Z.mod_small by apply byte_to_Z_range.
  unfold byte_to_Z. rewrite N2Z.id, Byte.of_to_N. reflexivity.
Qed.

Lemma lxor_range (n a b : Z) :
  0 <= n -> 0 <= a < 2 ^ n -> 0 <= b < 2 ^ n -> 0 <= Z.lxor a b < 2 ^ n.
Proof.
  intros Hn Ha Hb.
  assert (H0 : 0 <= Z.lxor a b) by (apply Z.lxor_nonneg; lia).
  split; [exact H0|].
  destruct (Z.eq_dec (Z.lxor a b) 0) as [->|Hne]; [lia|].
  assert (Hpos : 0 < n).
  { destruct (Z.eq_dec n 0) as [->|]; [|lia].
    assert (a = 0) as -> by (simpl in Ha; lia).
    assert (b = 0) as -> by (simpl in Hb; lia).
    now rewrite Z.lxor_0_l in Hne. }
  apply Z.log2_lt_pow2; [lia|].
  eapply Z.le_lt_trans; [apply Z.log2_lxor; lia|].
  apply Z.max_lub_lt.
  - destruct (Z.eq_dec a 0) as [->|]; [simpl; lia|]. apply Z.log2_lt_pow2; lia.
  - destruct (Z.eq_dec b 0) as [->|]; [simpl; lia|]. apply Z.log2_lt_pow2; lia.
Qed.

Lemma shift1_range (crc : Z) :
  0 <= crc < 2 ^ 32 -> 0 <= crc32.shift1 crc < 2 ^ 32.
Proof.
  intros H. unfold crc32.shift1.
  assert (Hs : 0 <= Z.shiftr crc 1 < 2 ^ 32).
  { rewrite Z.shiftr_div_pow2 by lia. change (2 ^ 1) with 2.
    split; [apply Z.div_pos; lia|]. apply Z.div_lt_upper_bound; lia. }
  destruct (Z.testbit crc 0); [|exact Hs].
  apply lxor_range; [lia|exact Hs|]. unfold crc32.IEEE. lia.
Qed.

Lemma update1_range (crc : Z) (b : byte) :
  0 <= crc < 2 ^ 32 -> 0 <= crc32.update1 crc b < 2 ^ 32.
Proof.
  intros H. unfold crc32.update1.
  assert (Hx : 0 <= Z.lxor crc (byte_to_Z b) < 2 ^ 32).
  { apply lxor_range; [lia|exact H|]. pose proof (byte_to_Z_range b). lia. }
  simpl Nat.iter. do 8 apply shift1_range. exact Hx.
Qed.

Lemma update_range (p : list byte) (crc : Z) :
  0 <= crc < 2 ^ 32 -> 0 <= crc32.update crc p < 2 ^ 32.
Proof.
  unfold crc32.update. revert crc.
  induction p as [|b p IH]; intros crc H; simpl; [exact H|].
  apply IH, update1_range, H.
Qed.

(** The checksum is a [uint32]. *)
Lemma ChecksumIEEE_range (data : list byte) :
  0 <= crc32.ChecksumIEEE data < 2 ^ 32.
Proof.
  unfold crc32.ChecksumIEEE. apply lxor_range; [lia| |lia].
  apply update_range. lia.
Qed.

(** Reading back the four bytes written for a [uint32] gives the value. *)
Lemma Uint32_PutUint32 (v : Z) :
  0 <= v < 2 ^ 32 ->
  LittleEndian.Uint32 (LittleEndian.PutUint32 v) = Ret v.
Proof.
  intros Hv. unfold LittleEndian.Uint32, LittleEndian.PutUint32. simpl.
  f_equal. rewrite !byte_to_Z_of_Z.
  change 256 with (2 ^ 8).
  apply Z.bits_inj'. intros n Hn.
  rewrite !Z.lor_spec, !Z.shiftl_spec by lia.
  destruct (Z_lt_dec n 8) as [H8|H8].
  { rewrite Z.mod_pow2_bits_low by lia.
    rewrite !(Z.testbit_neg_r _ (n - _)) by lia.
    now rewrite !orb_false_r. }
  rewrite (Z.mod_pow2_bits_high v) by lia. simpl orb.
  destruct (Z_lt_dec n 16) as [H16|H16].
  { rewrite Z.mod_pow2_bits_low by lia.
    rewrite (Z.testbit_neg_r _ (n - 16)), (Z.testbit_neg_r _ (n - 24)) by lia.
    rewrite Z.shiftr_spec by lia. rewrite !orb_false_r. f_equal. lia. }
  rewrite (Z.mod_pow2_bits_high (Z.shiftr v 8)) by lia. simpl orb.
  destruct (Z_lt_dec n 24) as [H24|H24].
  { rewrite Z.mod_pow2_bits_low by lia.
    rewrite (Z.testbit_neg_r _ (n - 24)) by lia.
    rewrite Z.shiftr_spec by lia. rewrite !orb_false_r. f_equal. lia. }
  rewrite (Z.mod_pow2_bits_high (Z.shiftr v 16)) by lia. simpl orb.
  destruct (Z_lt_dec n 32) as [H32|H32].
  { rewrite Z.mod_pow2_bits_low by lia.
    rewrite Z.shiftr_spec by lia. f_equal. lia. }
  rewrite Z.mod_pow2_bits_high by lia.
  symmetry. destruct (Z.eq_dec v 0) as [->|Hne]; [apply Z.bits_0|].
  apply Z.bits_above_log2; [lia|].
  assert (Z.log2 v < 32) by (apply Z.log2_lt_pow2; lia). lia.
Qed.

(** ** The test table of parser_test.go *)

(** The checksum model agrees with the CRC32 fields of the valid test
    datagrams, and the decoder with the expected results. *)
Example parser_test_table :
  parseResponse [x42; x45; x69; xdd; xde; x36; xff; x00; x01]
    = Ret (LoginResponse true)
  /\ parseResponse [x42; x45; xff; xed; xd9; x41; xff; x00; x00]
    = Ret (LoginResponse false)
  /\ parseResponse [x42; x45; xd3; x8c; xd7; xaf; xff; x00; x02]
    = Fail ErrInvalidLoginResponse
  /\ parseResponse ([x42; x45; x01; x7f; xb1; x1f; xff; x01; x01]
                      ++ ["H"; "e"; "l"; "l"; "o"]%byte)
    = Ret (CommandResponse
             (commandResponse.mk ["H"; "e"; "l"; "l"; "o"]%byte x01 x00 x00 false))
  /\ parseResponse [x42; x45; x04; x8d; xcb; xc1; xff; x01; x03]
    = Ret (CommandResponse (commandResponse.mk [] x03 x00 x00 false))
  /\ parseResponse ([x42; x45; x6a; x44; x98; x60; xff; x02; x07]
                      ++ ["S"; "e"; "r"; "v"; "e"; "r"; " ";
                          "m"; "e"; "s"; "s"; "a"; "g"; "e"]%byte)
    = Ret (ServerMessage
             (serverMessage.mk x07 ["S"; "e"; "r"; "v"; "e"; "r"; " ";
                                    "m"; "e"; "s"; "s"; "a"; "g"; "e"]%byte)).
Proof.
  vm_compute. repeat split.
Qed.

(** ** The decoder on a datagram of at least nine bytes *)

(** The checks of [parseResponse], read off a datagram laid out byte by
    byte. *)
Lemma parseResponse_layout (a0 a1 f0 f1 f2 f3 m ty b0 : byte) (body : list byte) :
  parseResponse (a0 :: a1 :: f0 :: f1 :: f2 :: f3 :: m :: ty :: b0 :: body) =
    if decide ([a0; a1] ≠ [x42; x45]) then Fail ErrInvalidHeader
    else if decide (m ≠ xff) then Fail ErrInvalidEndOfHeader
    else
      stored ← LittleEndian.Uint32 [f0; f1; f2; f3];
      if decide (crc32.ChecksumIEEE (m :: ty :: b0 :: body) ≠ stored)
      then Fail ErrInvalidChecksum
      else if decide (ty = loginType) then
        LoginResponse <$> loginResponse (b0 :: body)
      else if decide (ty = commandType) then
        CommandResponse <$> newCommandResponse (b0 :: body)
      else if decide (ty = serverMessageType) then
        ServerMessage <$> newServerMessage (b0 :: body)
      else Fail ErrUnknownPacketType.
Proof.
  unfold parseResponse.
  rewrite decide_False by (simpl; unfold minPacketSize; lia).
  change (slice _ 0 2) with (Ret (A:=list byte) [a0; a1]).
  cbn [mbind outcome_bind].
  destruct (decide ([a0; a1] ≠ [x42; x45])); [reflexivity|].
  change (index _ 6) with (Ret m). cbn [mbind outcome_bind].
  destruct (decide (m ≠ xff)); [reflexivity|].
  change (slice_from _ 6) with (Ret (m :: ty :: b0 :: body)).
  change (slice _ 2 6) with (Ret [f0; f1; f2; f3]).
  change (index _ 7) with (Ret ty).
  change (slice_from _ 8) with (Ret (b0 :: body)).
  reflexivity.
Qed.

(** A byte string of at least nine bytes, laid out. *)
Lemma nine_bytes (raw : list byte) :
  (9 <= length raw)%nat ->
  ∃ a0 a1 f0 f1 f2 f3 m ty b0 body,
    raw = a0 :: a1 :: f0 :: f1 :: f2 :: f3 :: m :: ty :: b0 :: body.
Proof.
  intros H.
  do 9 (destruct raw as [|? raw]; [simpl in H; lia|]).
  eauto 12.
Qed.

Lemma parseResponse_short (raw : list byte) :
  (length raw < 9)%nat -> parseResponse raw = Fail ErrInvalidPacketSize.
Proof.
  intros H. unfold parseResponse.
  now rewrite decide_True by (unfold minPacketSize; lia).
Qed.

(** Decoding the frame that [packet.header] puts around a payload. *)
Lemma parseResponse_frame (ty b0 : byte) (body : list byte) :
  let payload := xff :: ty :: b0 :: body in
  parseResponse (packet.header payload ++ payload) =
    if decide (ty = loginType) then
      LoginResponse <$> loginResponse (b0 :: body)
    else if decide (ty = commandType) then
      CommandResponse <$> newCommandResponse (b0 :: body)
    else if decide (ty = serverMessageType) then
      ServerMessage <$> newServerMessage (b0 :: body)
    else Fail ErrUnknownPacketType.
Proof.
  intros payload. unfold packet.header.
  pose proof (Uint32_PutUint32 _ (ChecksumIEEE_range payload)) as Hrt.
  unfold LittleEndian.PutUint32 in *.
  change (parseResponse _) with
    (parseResponse (x42 :: x45 ::
       byte_of_Z (crc32.ChecksumIEEE payload) ::
       byte_of_Z (Z.shiftr (crc32.ChecksumIEEE payload) 8) ::
       byte_of_Z (Z.shiftr (crc32.ChecksumIEEE payload) 16) ::
       byte_of_Z (Z.shiftr (crc32.ChecksumIEEE payload) 24) ::
       xff :: ty :: b0 :: body)).
  rewrite parseResponse_layout, Hrt.
  check_passes.
  check_passes.
  cbn [mbind outcome_bind].
  check_passes. reflexivity.
Qed.

(** ** Decode: validation order and checksum *)

(** C3.  For every input byte string [parseResponse] runs its checks in
    the stated order, each failure with its own error: fewer than nine
    bytes gives InvalidPacketSize; else a start other than 0x42 0x45 gives
    InvalidHeader; else a byte 6 other than 0xFF gives InvalidEndOfHeader;
    else a CRC32 over bytes 6 onwards that differs from the little-endian
    word at bytes 2 to 5 gives InvalidChecksum; else a byte 7 that is no
    known payload type gives UnknownPacketType. *)
Theorem parseResponse_checks_in_order (raw : list byte) :
  ((length raw < 9)%nat ->
     parseResponse raw = Fail ErrInvalidPacketSize)
  /\ ((9 <= length raw)%nat ->
      take 2 raw ≠ [x42; x45] ->
      parseResponse raw = Fail ErrInvalidHeader)
  /\ ((9 <= length raw)%nat ->
      take 2 raw = [x42; x45] ->
      raw !! 6%nat ≠ Some xff ->
      parseResponse raw = Fail ErrInvalidEndOfHeader)
  /\ ((9 <= length raw)%nat ->
      take 2 raw = [x42; x45] ->
      raw !! 6%nat = Some xff ->
      storedChecksum raw ≠ Ret (payloadChecksum raw) ->
      parseResponse raw = Fail ErrInvalidChecksum)
  /\ ((9 <= length raw)%nat ->
      take 2 raw = [x42; x45] ->
      raw !! 6%nat = Some xff ->
      storedChecksum raw = Ret (payloadChecksum raw) ->
      raw !! 7%nat ≠ Some loginType ->
      raw !! 7%nat ≠ Some commandType ->
      raw !! 7%nat ≠ Some serverMessageType ->
      parseResponse raw = Fail ErrUnknownPacketType).
Proof.
  split; [apply parseResponse_short|].
  repeat split; intros Hlen;
    destruct (nine_bytes raw Hlen)
      as (a0 & a1 & f0 & f1 & f2 & f3 & m & ty & b0 & body & ->);
    rewrite parseResponse_layout;
    unfold storedChecksum, payloadChecksum; simpl take; simpl drop;
    change ((?l : list byte) !! 6%nat) with (Some m);
    change ((?l : list byte) !! 7%nat) with (Some ty).
  - intros Hm. now rewrite decide_True.
  - intros Hm He. check_passes.
    rewrite decide_True by (intros ->; now apply He). reflexivity.
  - intros Hm He Hc. check_passes.
    rewrite decide_False by (intros H; apply H; congruence).
    destruct (LittleEndian.Uint32 [f0; f1; f2; f3]) as [stored| |] eqn:E;
      try discriminate E.
    cbn [mbind outcome_bind]. rewrite decide_True; [reflexivity|].
    congruence.
  - intros Hm He Hc H0 H1 H2. check_passes.
    rewrite decide_False by (intros H; apply H; congruence).
    rewrite Hc. cbn [mbind outcome_bind].
    check_passes.
    rewrite !decide_False by (intros ->; tauto). reflexivity.
Qed.

(** The five failing datagrams of the parser's test table. *)
Lemma parseResponse_checks_in_order_witness :
  parseResponse [x00; x00; x00; x00; x00; x00; x00; x00]
    = Fail ErrInvalidPacketSize
  /\ parseResponse [x47; x47; x00; x00; x00; x00; x00; x00; x00]
    = Fail ErrInvalidHeader
  /\ parseResponse [x42; x45; x12; xd9; x41; xff; x00; x00; x00]
    = Fail ErrInvalidEndOfHeader
  /\ parseResponse [x42; x45; x00; x23; x00; x85; xff; x00; x00]
    = Fail ErrInvalidChecksum
  /\ parseResponse [x42; x45; xba; x19; xae; x3c; xff; x05; x00]
    = Fail ErrUnknownPacketType.
Proof.
  refine (conj _ (conj _ (conj _ (conj _ _)))).
  - apply (proj1 (parseResponse_checks_in_order _)). simpl. lia.
  - apply (proj1 (proj2 (parseResponse_checks_in_order _))).
    + simpl. lia.
    + discriminate.
  - apply (proj1 (proj2 (proj2 (parseResponse_checks_in_order _)))).
    + simpl. lia.
    + reflexivity.
    + discriminate.
  - apply (proj1 (proj2 (proj2 (proj2 (parseResponse_checks_in_order _))))).
    + simpl. lia.
    + reflexivity.
    + reflexivity.
    + vm_compute. discriminate.
  - apply (proj2 (proj2 (proj2 (proj2 (parseResponse_checks_in_order _))))).
    + simpl. lia.
    + reflexivity.
    + reflexivity.
    + vm_compute. reflexivity.
    + discriminate.
    + discriminate.
    + discriminate.
Defined.

(** C4, as the claim states it, fails: the second datagram of the parser's
    test table stores a CRC32 of 0 over a payload whose CRC32 is
    0xff41d912, and decoding it reports the bad header, not the bad
    checksum. *)
Lemma corrupted_crc_not_always_InvalidChecksum :
  storedChecksum invalidHeaderDatagram = Ret 0
  /\ payloadChecksum invalidHeaderDatagram = 0xff41d912
  /\ storedChecksum invalidHeaderDatagram
       ≠ Ret (payloadChecksum invalidHeaderDatagram)
  /\ parseResponse invalidHeaderDatagram = Fail ErrInvalidHeader
  /\ parseResponse invalidHeaderDatagram ≠ Fail ErrInvalidChecksum.
Proof.
  vm_compute. repeat split; discriminate.
Qed.

(** C4, amended.  For every byte string of at least nine bytes that starts
    with 0x42 0x45 and has 0xFF at byte 6, if the stored CRC32 field does
    not match the CRC32 computed over the payload, decoding returns
    InvalidChecksum. *)
Theorem corrupted_crc_InvalidChecksum (raw : list byte) :
  (9 <= length raw)%nat ->
  take 2 raw = [x42; x45] ->
  raw !! 6%nat = Some xff ->
  storedChecksum raw ≠ Ret (payloadChecksum raw) ->
  parseResponse raw = Fail ErrInvalidChecksum.
Proof.
  intros Hlen Hm He Hc.
  destruct (nine_bytes raw Hlen)
    as (a0 & a1 & f0 & f1 & f2 & f3 & m & ty & b0 & body & ->).
  injection Hm as -> ->. injection He as ->.
  rewrite parseResponse_layout.
  check_passes.
  check_passes.
  unfold storedChecksum, payloadChecksum in Hc. simpl take in Hc. simpl drop in Hc.
  destruct (LittleEndian.Uint32 [f0; f1; f2; f3]) as [stored| |] eqn:E;
    try discriminate E.
  cbn [mbind outcome_bind]. rewrite decide_True; [reflexivity|].
  congruence.
Qed.

(** The checksum test datagram of the parser's test table. *)
Lemma corrupted_crc_InvalidChecksum_witness :
  parseResponse invalidChecksumDatagram = Fail ErrInvalidChecksum.
Proof.
  apply corrupted_crc_InvalidChecksum.
  - simpl. lia.
  - reflexivity.
  - reflexivity.
  - vm_compute. discriminate.
Defined.

(** ** Encode then decode *)

Lemma bytes_frame (p : packet.t) (payload : list byte) :
  packet.payload p = Ret payload ->
  packet.bytes p = Ret (packet.header payload ++ payload).
Proof.
  intros H. unfold packet.bytes. rewrite H. reflexivity.
Qed.

(** Every encoded packet carries the CRC32 of its payload in its header
    and passes the four framing checks of the decoder. *)
Lemma roundtrip_frame (p : packet.t) (ty b0 : byte) (body : list byte) :
  packet.payload p = Ret (xff :: ty :: b0 :: body) ->
  roundtrip p =
    if decide (ty = loginType) then
      LoginResponse <$> loginResponse (b0 :: body)
    else if decide (ty = commandType) then
      CommandResponse <$> newCommandResponse (b0 :: body)
    else if decide (ty = serverMessageType) then
      ServerMessage <$> newServerMessage (b0 :: body)
    else Fail ErrUnknownPacketType.
Proof.
  intros H. unfold roundtrip. rewrite (bytes_frame _ _ H).
  cbn [mbind outcome_bind]. apply parseResponse_frame.
Qed.

(** A command response body that does not open a multi-packet header is
    taken whole. *)
Lemma newCommandResponse_plain (s : byte) (cmd : list byte) :
  head cmd ≠ Some multiPacketType ->
  newCommandResponse (s :: cmd) = Ret (commandResponse.mk cmd s x00 x00 false).
Proof.
  intros Hh. destruct cmd as [|c cmd]; [reflexivity|].
  unfold newCommandResponse.
  change (index _ 0) with (Ret s).
  change (slice_from (s :: c :: cmd) 1) with (Ret (c :: cmd)).
  change (index _ 1) with (Ret c).
  cbn [mbind outcome_bind].
  rewrite decide_False by (simpl; lia).
  rewrite decide_False by (intros ->; now apply Hh).
  reflexivity.
Qed.

(** C1, as the claim states it, fails: the login packet of the packet
    tests, with password "secret", does not decode to itself; the decoder
    reads the first password byte as a login result and rejects it. *)
Lemma login_packet_does_not_roundtrip :
  packet.bytes (newLoginPacket secret)
    = Ret ([x42; x45; xc9; x90; x09; xae; xff; x00] ++ secret)
  /\ parseResponse ([x42; x45; xc9; x90; x09; xae; xff; x00] ++ secret)
    = Fail ErrInvalidLoginResponse
  /\ ¬ ∃ r, roundtrip (newLoginPacket secret) = Ret r.
Proof.
  split; [|split]; [vm_compute; reflexivity..|].
  intros [r Hr]. vm_compute in Hr. discriminate Hr.
Qed.

(** C1, amended.  Decoding the bytes produced by encoding
    - a command packet whose command text does not begin with byte 0x00
      (the empty keep-alive included) yields a non-multi command response
      with the same sequence number and text;
    - a server-message acknowledgement yields a server message with the
      same sequence number and an empty text;
    - a login packet does not yield the packet back: the decoder reads the
      first password byte as the login result, and an empty password makes
      the datagram one byte too short. *)
Theorem roundtrip_requests :
  (∀ (cmd : list byte) (s : byte),
     head cmd ≠ Some multiPacketType ->
     roundtrip (newCommandPacket cmd s)
       = Ret (CommandResponse (commandResponse.mk cmd s x00 x00 false)))
  /\ (∀ s : byte,
        roundtrip (newServerMessageAcknowledgePacket s)
          = Ret (ServerMessage (serverMessage.mk s [])))
  /\ (∀ pwd : list byte,
        roundtrip (newLoginPacket pwd)
          = match pwd with
            | [] => Fail ErrInvalidPacketSize
            | r :: _ =>
                if decide (r = loginFailed) then Ret (LoginResponse false)
                else if decide (r = loginSuccess) then Ret (LoginResponse true)
                else Fail ErrInvalidLoginResponse
            end).
Proof.
  refine (conj _ (conj _ _)).
  - intros cmd s Hh.
    rewrite (roundtrip_frame _ commandType s cmd) by reflexivity.
    rewrite decide_False by discriminate.
    rewrite decide_True by reflexivity.
    now rewrite newCommandResponse_plain.
  - intros s.
    rewrite (roundtrip_frame _ serverMessageType s []) by reflexivity.
    rewrite !decide_False by discriminate.
    rewrite decide_True by reflexivity.
    reflexivity.
  - intros [|r pwd].
    + unfold roundtrip. change (packet.bytes (newLoginPacket []))
        with (Ret (packet.header [xff; x00] ++ [xff; x00])).
      cbn [mbind outcome_bind]. apply parseResponse_short. simpl. lia.
    + rewrite (roundtrip_frame _ loginType r pwd) by reflexivity.
      rewrite decide_True by reflexivity.
      unfold loginResponse. change (index _ 0) with (Ret r).
      cbn [mbind outcome_bind].
      destruct (decide (r = loginFailed)); [reflexivity|].
      destruct (decide (r = loginSuccess)); reflexivity.
Qed.

(** The command packet and the acknowledgement of the packet tests. *)
Lemma roundtrip_requests_witness :
  roundtrip (newCommandPacket doSomething x03)
    = Ret (CommandResponse (commandResponse.mk doSomething x03 x00 x00 false))
  /\ roundtrip (newServerMessageAcknowledgePacket x02)
    = Ret (ServerMessage (serverMessage.mk x02 [])).
Proof.
  refine (conj _ _).
  - apply (proj1 roundtrip_requests). simpl. discriminate.
  - apply (proj1 (proj2 roundtrip_requests)).
Defined.

(** ** Totality of the decoder *)

Lemma loginResponse_no_panic (b0 : byte) (body : list byte) :
  LoginResponse <$> loginResponse (b0 :: body) ≠ Panic.
Proof.
  unfold loginResponse. change (index _ 0) with (Ret b0).
  cbn [mbind outcome_bind].
  destruct (decide (b0 = loginFailed)); [discriminate|].
  destruct (decide (b0 = loginSuccess)); discriminate.
Qed.

Lemma newServerMessage_no_panic (b0 : byte) (body : list byte) :
  ServerMessage <$> newServerMessage (b0 :: body) ≠ Panic.
Proof. discriminate. Qed.

(** [newCommandResponse] reads the size and index bytes of a multi-packet
    header without checking that they are there. *)
Lemma newCommandResponse_panic_iff (s : byte) (rest : list byte) :
  newCommandResponse (s :: rest) = Panic
  <-> rest !! 0%nat = Some multiPacketType /\ (length rest < 3)%nat.
Proof.
  destruct rest as [|r1 rest].
  { split; [discriminate|]. intros [H _]. discriminate H. }
  unfold newCommandResponse.
  change (index _ 0) with (Ret s).
  change (slice_from (s :: r1 :: rest) 1) with (Ret (r1 :: rest)).
  change (index _ 1) with (Ret r1).
  cbn [mbind outcome_bind].
  rewrite decide_False by (simpl; lia).
  destruct (decide (r1 = multiPacketType)) as [->|Hne].
  - destruct rest as [|r2 [|r3 rest]].
    + split; [intros _; split; [reflexivity|simpl; lia]|reflexivity].
    + split; [intros _; split; [reflexivity|simpl; lia]|reflexivity].
    + split; [discriminate|]. intros [_ H]. simpl in H. lia.
  - split; [discriminate|]. intros [H _]. injection H as ->. now destruct Hne.
Qed.

(** [parseResponse] panics on exactly the well-framed command responses
    whose body opens a multi-packet header and stops before its end. *)
Lemma parseResponse_panic_iff (raw : list byte) :
  parseResponse raw = Panic
  <-> (length raw < 12)%nat
      /\ take 2 raw = [x42; x45]
      /\ raw !! 6%nat = Some xff
      /\ storedChecksum raw = Ret (payloadChecksum raw)
      /\ raw !! 7%nat = Some commandType
      /\ raw !! 9%nat = Some multiPacketType.
Proof.
  destruct (le_lt_dec 9 (length raw)) as [Hlen|Hlen].
  2:{ rewrite parseResponse_short by exact Hlen.
      split; [discriminate|]. intros (_ & _ & _ & _ & _ & H).
      apply lookup_lt_Some in H. lia. }
  destruct (nine_bytes raw Hlen)
    as (a0 & a1 & f0 & f1 & f2 & f3 & m & ty & b0 & body & ->).
  rewrite parseResponse_layout.
  unfold storedChecksum, payloadChecksum. simpl take. simpl drop.
  change ((?l : list byte) !! 6%nat) with (Some m).
  change ((?l : list byte) !! 7%nat) with (Some ty).
  change ((?l : list byte) !! 9%nat) with (body !! 0%nat).
  destruct (decide ([a0; a1] ≠ [x42; x45])) as [Hm|Hm].
  { split; [discriminate|]. intros (_ & H & _). now destruct Hm. }
  destruct (decide (m ≠ xff)) as [He|He].
  { split; [discriminate|]. intros (_ & _ & H & _). injection H as ->.
    now destruct He. }
  destruct (LittleEndian.Uint32 [f0; f1; f2; f3]) as [stored| |] eqn:E;
    try discriminate E.
  cbn [mbind outcome_bind].
  destruct (decide (crc32.ChecksumIEEE (m :: ty :: b0 :: body) ≠ stored))
    as [Hc|Hc].
  { split; [discriminate|]. intros (_ & _ & _ & H & _). injection H as ->.
    now destruct Hc. }
  destruct (decide (ty = loginType)) as [->|H0].
  { split; [intros H; now apply loginResponse_no_panic in H|].
    intros (_ & _ & _ & _ & H & _). discriminate H. }
  destruct (decide (ty = commandType)) as [->|H1].
  { destruct (newCommandResponse (b0 :: body)) as [cr| |] eqn:Ecr.
    - split; [discriminate|]. intros (Hl & _ & _ & _ & _ & Hb).
      assert (newCommandResponse (b0 :: body) = Panic) as Hp
        by (apply newCommandResponse_panic_iff; split; [exact Hb|simpl in Hl; lia]).
      congruence.
    - split; [discriminate|]. intros (Hl & _ & _ & _ & _ & Hb).
      assert (newCommandResponse (b0 :: body) = Panic) as Hp
        by (apply newCommandResponse_panic_iff; split; [exact Hb|simpl in Hl; lia]).
      congruence.
    - apply newCommandResponse_panic_iff in Ecr as [Hb Hl].
      split; [intros _|reflexivity].
      repeat split; try assumption; try (simpl; lia).
      + apply dec_stable in Hm. exact Hm.
      + apply dec_stable in He. now rewrite He.
      + f_equal. apply dec_stable in Hc. now rewrite Hc. }
  destruct (decide (ty = serverMessageType)) as [->|H2].
  { split; [intros H; now apply newServerMessage_no_panic in H|].
    intros (_ & _ & _ & _ & H & _). discriminate H. }
  split; [discriminate|]. intros (_ & _ & _ & _ & H & _).
  injection H as ->. now destruct H1.
Qed.

(** C10.  [parseResponse] is not total: on the well-formed ten-byte
    command response "BE", CRC32, 0xFF, 0x01, sequence 0, 0x00 the
    multi-packet header is announced and missing, [newCommandResponse]
    reads [raw[2]] of a two-byte body, and the call panics instead of
    returning a value or a decode error. *)
Theorem parseResponse_short_multi_header_panics :
  length shortMultiDatagram = 10%nat
  /\ take 2 shortMultiDatagram = [x42; x45]
  /\ shortMultiDatagram !! 6%nat = Some xff
  /\ storedChecksum shortMultiDatagram = Ret (payloadChecksum shortMultiDatagram)
  /\ newCommandResponse (drop 8 shortMultiDatagram) = Panic
  /\ parseResponse shortMultiDatagram = Panic.
Proof.
  vm_compute. repeat split.
Qed.

(** ** Sequence counter and stale replies *)

Lemma ctr_send (c : Client) (cmd : list byte) (now : Z) (io : option error)
    (ev : sendEvent) :
  ctr (send c cmd now io ev).1 = ctr c.
Proof.
  unfold send. destruct (write c _ io); reflexivity.
Qed.

(** What [handleCommandResponse] does, case by case. *)
Lemma handleCommandResponse_cases (c c' : Client) (r : commandResponse.t)
    (out : option (list byte)) :
  handleCommandResponse c r = Ret (c', out) ->
  (commandResponse.seq r ≠ Client_seq c /\ c' = c /\ out = None)
  \/ (commandResponse.seq r = Client_seq c
      /\ commandResponse.multi r = false
      /\ c' = incr c /\ out = Some (commandResponse.msg r))
  \/ (commandResponse.seq r = Client_seq c
      /\ commandResponse.multi r = true
      /\ ∃ fr, fragments c' !! commandResponse.seq r = Some fr
           /\ ((fragmentedResponse.completed fr = false
                /\ ctr c' = ctr c /\ out = None)
               \/ (fragmentedResponse.completed fr = true
                   /\ ctr c' = (ctr c + 1) mod 2 ^ 64
                   /\ out = Some (fragmentedResponse.message fr)))).
Proof.
  unfold handleCommandResponse. intros H.
  destruct (decide (commandResponse.seq r ≠ Client_seq c)) as [Hs|Hs].
  { injection H as <- <-. left. auto. }
  apply dec_stable in Hs. right.
  destruct (commandResponse.multi r); cbn [negb] in H; cbv iota in H.
  2:{ injection H as <- <-. left. auto. }
  destruct (fragmentedResponse.add _ r) as [fr| |]; try discriminate H.
  cbn [mbind outcome_bind] in H.
  right. split; [exact Hs|]. split; [reflexivity|]. exists fr.
  destruct (fragmentedResponse.completed fr) eqn:Hc; injection H as <- <-;
    (split; [apply lookup_insert_eq|]); [right|left]; auto.
Qed.

Lemma stale_response_dropped_aux (c : Client) (r : commandResponse.t) :
  commandResponse.seq r ≠ Client_seq c ->
  handleCommandResponse c r = Ret (c, None)
  /\ step c (Receive r) = Ret (c, []).
Proof.
  intros Hs.
  assert (H : handleCommandResponse c r = Ret (c, None)).
  { unfold handleCommandResponse. now rewrite decide_True. }
  split; [exact H|]. unfold step. rewrite H. reflexivity.
Qed.

(** C6.  A command response whose sequence number differs from the
    current counter value is dropped silently: the client comes back
    unchanged, so the counter is not advanced and the fragment map is not
    modified, and nothing is published on the reply channel. *)
Theorem stale_response_dropped (c : Client) (r : commandResponse.t) :
  commandResponse.seq r ≠ Client_seq c ->
  ∃ c', handleCommandResponse c r = Ret (c', None)
        /\ ctr c' = ctr c
        /\ fragments c' = fragments c
        /\ c' = c.
Proof.
  intros Hs. exists c.
  split; [apply (stale_response_dropped_aux c r Hs)|]. auto.
Qed.

(** A duplicate of the reply to sequence 0 reaching a client that expects
    sequence 1. *)
Lemma stale_response_dropped_witness :
  ∃ c', handleCommandResponse (incr connectedClient) (replyPart x00 [secret] 0)
          = Ret (c', None)
        /\ ctr c' = ctr (incr connectedClient)
        /\ fragments c' = fragments (incr connectedClient)
        /\ c' = incr connectedClient.
Proof.
  apply stale_response_dropped. vm_compute. discriminate.
Defined.

Lemma step_cases (c c' : Client) (a : action) (out : list (list byte)) :
  step c a = Ret (c', out) ->
  (ctr c' = ctr c /\ out = [])
  \/ (ctr c' = (ctr c + 1) mod 2 ^ 64
      /\ ∃ r m, a = Receive r /\ out = [m]
          /\ commandResponse.seq r = Client_seq c
          /\ ((commandResponse.multi r = false /\ m = commandResponse.msg r)
              \/ (commandResponse.multi r = true
                  /\ ∃ fr, fragments c' !! commandResponse.seq r = Some fr
                       /\ fragmentedResponse.completed fr = true
                       /\ m = fragmentedResponse.message fr))).
Proof.
  intros H. destruct a as [cmd now io ev|r]; simpl in H.
  - pose proof (ctr_send c cmd now io ev) as Hc.
    destruct (send c cmd now io ev) as [c1 [resp|e|]]; try discriminate H;
      injection H as <- <-; left; auto.
  - destruct (handleCommandResponse c r) as [[c1 o]| |] eqn:E;
      try discriminate H.
    cbn [mbind outcome_bind] in H. injection H as <- <-.
    apply handleCommandResponse_cases in E
      as [(_ & -> & ->)|[(Hs & Hm & -> & ->)|(Hs & Hm & fr & Hfr & Hcase)]].
    + left. auto.
    + right. split; [reflexivity|]. exists r, (commandResponse.msg r).
      repeat split; try assumption. left. auto.
    + destruct Hcase as [(_ & Hc & ->)|(Hd & Hc & ->)].
      * left. auto.
      * right. split; [exact Hc|].
        exists r, (fragmentedResponse.message fr).
        repeat split; try assumption. right. split; [exact Hm|]. eauto.
Qed.

Lemma step_counts (c c' : Client) (a : action) (out : list (list byte)) :
  0 <= ctr c < 2 ^ 64 ->
  step c a = Ret (c', out) ->
  0 <= ctr c' < 2 ^ 64
  /\ ctr c' = (ctr c + Z.of_nat (length out)) mod 2 ^ 64.
Proof.
  intros Hr H.
  apply step_cases in H as [(-> & ->)|(-> & r & m & _ & -> & _)]; simpl length.
  - split; [exact Hr|]. rewrite Z.add_0_r, Z.mod_small; [reflexivity|exact Hr].
  - split; [apply Z.mod_pos_bound; lia|reflexivity].
Qed.

Lemma run_counts (trace : list action) (c c' : Client) (outs : list (list byte)) :
  0 <= ctr c < 2 ^ 64 ->
  run c trace = Ret (c', outs) ->
  ctr c' = (ctr c + Z.of_nat (length outs)) mod 2 ^ 64.
Proof.
  revert c outs. induction trace as [|a trace IH]; intros c outs Hr H.
  - injection H as <- <-. simpl. rewrite Z.add_0_r, Z.mod_small; auto.
  - simpl in H.
    destruct (step c a) as [[c1 out]| |] eqn:E1; try discriminate H.
    cbn [mbind outcome_bind] in H.
    destruct (run c1 trace) as [[c2 outs']| |] eqn:E2; try discriminate H.
    cbn [mbind outcome_bind] in H. injection H as <- <-.
    destruct (step_counts _ _ _ _ Hr E1) as [Hr1 H1].
    rewrite (IH _ _ Hr1 E2), H1, length_app, Nat2Z.inj_add.
    rewrite Zplus_mod_idemp_l. f_equal. lia.
Qed.

Lemma applyOptions_ctr (options : list (option Option)) (c c' : Client) :
  Forall packageOption options ->
  applyOptions options c = Ret c' ->
  ctr c' = ctr c.
Proof.
  intros Hall. revert c. induction Hall as [|o options Ho _ IH]; intros c H.
  - now injection H as <-.
  - destruct Ho as [t|t|size]; simpl in H.
    + now rewrite (IH _ H).
    + now rewrite (IH _ H).
    + unfold MessageBuffer in H. destruct (decide (size < 1)); [discriminate H|].
      now rewrite (IH _ H).
Qed.

Lemma connect_ctr (c : Client) (pwd : list byte) (net : network) :
  ctr (connect c pwd net).1 = ctr c.
Proof.
  unfold connect. destruct (dial net); [reflexivity|].
  destruct (write _ _ _); try reflexivity.
  destruct (loginSelect net) as [| |[|]]; reflexivity.
Qed.

Lemma NewClient_Ret (pwd : list byte) (options : list (option Option))
    (net : network) (c : Client) :
  NewClient pwd options net = Returns (Ret c) ->
  ∃ c1, applyOptions options defaultClient = Ret c1
        /\ 0 <= msgBufSize c1 <= chanLimit net
        /\ connect (allocate c1) pwd net = (c, Ret tt).
Proof.
  unfold NewClient. intros H.
  destruct (applyOptions options defaultClient) as [c1| |]; try discriminate H.
  destruct (decide (0 <= msgBufSize c1 <= chanLimit net)) as [Hr|];
    [|discriminate H].
  exists c1. split; [reflexivity|]. split; [exact Hr|].
  destruct (connect (allocate c1) pwd net) as [c2 [[]|e|]].
  - now injection H as <-.
  - destruct (Close c2 (receiverStuck net)) as [[[? ?]|?|]|]; discriminate H.
  - discriminate H.
Qed.

Lemma NewClient_ctr (pwd : list byte) (options : list (option Option))
    (net : network) (c : Client) :
  Forall packageOption options ->
  NewClient pwd options net = Returns (Ret c) ->
  ctr c = 0.
Proof.
  intros Hall H. apply NewClient_Ret in H as (c1 & E & _ & Hc).
  apply (applyOptions_ctr _ _ _ Hall) in E.
  pose proof (connect_ctr (allocate c1) pwd net) as Hk.
  rewrite Hc in Hk. simpl in Hk, E. congruence.
Qed.

(** ** Fragment reassembly entries *)

Lemma add_Ret (fm fm' : fragmentedResponse.t) (cr : commandResponse.t) :
  fragmentedResponse.add fm cr = Ret fm' ->
  (byte_to_nat (commandResponse.multiIndex cr)
     < length (fragmentedResponse.parts fm))%nat
  /\ fm' = fragmentedResponse.mk
             (fragmentedResponse.expected fm ∖ {[commandResponse.multiIndex cr]})
             (<[byte_to_nat (commandResponse.multiIndex cr)
                  := commandResponse.msg cr]> (fragmentedResponse.parts fm)).
Proof.
  unfold fragmentedResponse.add. intros H.
  destruct (decide _) as [Hlt|]; [|discriminate H].
  injection H as <-. auto.
Qed.

Lemma difference_twice_singleton (X : gset byte) (i : byte) :
  X ∖ {[i]} ∖ {[i]} = X ∖ {[i]}.
Proof.
  apply set_eq. intros x. rewrite !elem_of_difference. tauto.
Qed.

(** C7.  Adding a duplicate fragment, one with the part index of a
    fragment already stored in the entry, overwrites the slot with the new
    body and leaves the set of missing indices as it was; the size of that
    set and the completion status do not change. *)
Theorem add_duplicate (fm fm1 : fragmentedResponse.t)
    (cr1 cr2 : commandResponse.t) :
  fragmentedResponse.add fm cr1 = Ret fm1 ->
  commandResponse.multiIndex cr2 = commandResponse.multiIndex cr1 ->
  ∃ fm2,
    fragmentedResponse.add fm1 cr2 = Ret fm2
    /\ fragmentedResponse.parts fm2
         !! byte_to_nat (commandResponse.multiIndex cr2)
       = Some (commandResponse.msg cr2)
    /\ (∀ j, j ≠ byte_to_nat (commandResponse.multiIndex cr2) ->
             fragmentedResponse.parts fm2 !! j
             = fragmentedResponse.parts fm1 !! j)
    /\ fragmentedResponse.expected fm2 = fragmentedResponse.expected fm1
    /\ size (fragmentedResponse.expected fm2)
       = size (fragmentedResponse.expected fm1)
    /\ fragmentedResponse.completed fm2 = fragmentedResponse.completed fm1.
Proof.
  intros H1 Hi. apply add_Ret in H1 as [Hlt ->].
  rewrite Hi. unfold fragmentedResponse.add, fragmentedResponse.completed.
  cbn [fragmentedResponse.parts fragmentedResponse.expected].
  rewrite Hi, length_insert, decide_True by exact Hlt.
  eexists. split; [reflexivity|].
  cbn [fragmentedResponse.parts fragmentedResponse.expected].
  rewrite difference_twice_singleton.
  repeat split.
  - apply list_lookup_insert_eq. now rewrite length_insert.
  - intros j Hj. now apply list_lookup_insert_ne.
Qed.

(** Part 0 of a two-part reply arriving twice with different bodies. *)
Lemma add_duplicate_witness :
  ∃ fm2,
    fragmentedResponse.add
      (fragmentedResponse.mk {[x01]} [secret; []])
      (replyPart x00 [doSomething; secret] 0) = Ret fm2
    /\ fragmentedResponse.parts fm2
         !! byte_to_nat (commandResponse.multiIndex
                           (replyPart x00 [doSomething; secret] 0))
       = Some (commandResponse.msg (replyPart x00 [doSomething; secret] 0))
    /\ (∀ j, j ≠ byte_to_nat (commandResponse.multiIndex
                                (replyPart x00 [doSomething; secret] 0)) ->
             fragmentedResponse.parts fm2 !! j
             = fragmentedResponse.parts
                 (fragmentedResponse.mk {[x01]} [secret; []]) !! j)
    /\ fragmentedResponse.expected fm2
       = fragmentedResponse.expected
           (fragmentedResponse.mk {[x01]} [secret; []])
    /\ size (fragmentedResponse.expected fm2)
       = size (fragmentedResponse.expected
                 (fragmentedResponse.mk {[x01]} [secret; []]))
    /\ fragmentedResponse.completed fm2
       = fragmentedResponse.completed
           (fragmentedResponse.mk {[x01]} [secret; []]).
Proof.
  apply (add_duplicate (newFragmentedResponse x02) _
           (replyPart x00 [secret; secret] 0)).
  - vm_compute. reflexivity.
  - reflexivity.
Defined.

(** ** Construction options *)

Lemma applyOptions_app (before after : list (option Option)) (c : Client) :
  applyOptions (before ++ after) c =
    c1 ← applyOptions before c; applyOptions after c1.
Proof.
  revert c. induction before as [|[o|] before IH]; intros c; simpl.
  - reflexivity.
  - destruct (o c) as [c1| |]; simpl; [apply IH|reflexivity..].
  - reflexivity.
Qed.

Lemma applyOptions_timing (options : list (option Option)) (c : Client) :
  Forall timingOption options ->
  ∃ c', applyOptions options c = Ret c' /\ msgBufSize c' = msgBufSize c.
Proof.
  intros Hall. revert c. induction Hall as [|o options Ho _ IH]; intros c.
  - exists c. auto.
  - destruct Ho as [t|t]; simpl.
    + destruct (IH (set_timeout t c)) as (c' & H & Hs). exists c'. auto.
    + destruct (IH (set_keepAlive t c)) as (c' & H & Hs). exists c'. auto.
Qed.

Lemma connect_msgs (c : Client) (pwd : list byte) (net : network) :
  msgs (connect c pwd net).1 = msgs c
  /\ msgBufSize (connect c pwd net).1 = msgBufSize c.
Proof.
  unfold connect. destruct (dial net); [auto|].
  destruct (write _ _ _); auto.
  destruct (loginSelect net) as [| |[|]]; auto.
Qed.

Lemma applyOptions_buffer (before after : list (option Option))
    (size : Z) (c0 : Client) :
  1 <= size ->
  Forall timingOption after ->
  applyOptions before defaultClient = Ret c0 ->
  ∃ c1, applyOptions (before ++ Some (MessageBuffer size) :: after)
          defaultClient = Ret c1
        /\ msgBufSize c1 = size.
Proof.
  intros Hs Hall Hb. rewrite applyOptions_app, Hb.
  cbn [mbind outcome_bind applyOptions]. unfold MessageBuffer.
  rewrite decide_False by lia. cbn [mbind outcome_bind].
  destruct (applyOptions_timing after (set_msgBufSize size c0) Hall)
    as (c1 & E & Hsz).
  exists c1. split; [exact E|exact Hsz].
Qed.

(** A client whose options apply and whose queue the runtime serves is
    opened on a network where dialling, the login write and the login
    succeed. *)
Lemma NewClient_opens (pwd : list byte) (options : list (option Option))
    (net : network) (c1 : Client) :
  applyOptions options defaultClient = Ret c1 ->
  0 <= msgBufSize c1 <= chanLimit net ->
  dial net = None ->
  loginWrite net = None ->
  loginSelect net = ConnectLogin true ->
  NewClient pwd options net
  = Returns (Ret (set_conn (Some ConnOpen) (allocate c1))).
Proof.
  intros Ho Hr Hd Hw Hl. unfold NewClient. rewrite Ho.
  rewrite decide_True by exact Hr. unfold connect, write.
  rewrite Hd, Hw, Hl. reflexivity.
Qed.

(** C9.  An option [MessageBuffer size] with [size < 1] fails with
    InvalidMessageBufferSize, and construction with it returns that error
    and no client, whatever the network.  With [size >= 1] the option sets
    the buffer size; construction then makes the broadcast queue with
    capacity [size]: every client returned has a queue of that capacity,
    and a client is returned whenever the runtime serves a queue of that
    size and dialling, the login write and the login succeed.  Without
    the option the same holds with the capacity 100. *)
Theorem MessageBuffer_capacity :
  (∀ size c, size < 1 -> MessageBuffer size c = Fail ErrInvalidMessageBufferSize)
  /\ (∀ pwd before size after net c1,
        size < 1 ->
        applyOptions before defaultClient = Ret c1 ->
        NewClient pwd (before ++ Some (MessageBuffer size) :: after) net
          = Returns (Fail ErrInvalidMessageBufferSize))
  /\ (∀ size c, 1 <= size -> MessageBuffer size c = Ret (set_msgBufSize size c))
  /\ (∀ pwd before size after net c,
        1 <= size ->
        Forall timingOption after ->
        NewClient pwd (before ++ Some (MessageBuffer size) :: after) net
          = Returns (Ret c) ->
        msgBufSize c = size /\ msgs c = Some (mkChan size false))
  /\ (∀ pwd before size after net c0,
        1 <= size <= chanLimit net ->
        Forall timingOption after ->
        applyOptions before defaultClient = Ret c0 ->
        dial net = None ->
        loginWrite net = None ->
        loginSelect net = ConnectLogin true ->
        ∃ c, NewClient pwd (before ++ Some (MessageBuffer size) :: after) net
               = Returns (Ret c)
             /\ msgBufSize c = size /\ msgs c = Some (mkChan size false))
  /\ (∀ pwd options net c,
        Forall timingOption options ->
        NewClient pwd options net = Returns (Ret c) ->
        msgBufSize c = 100 /\ msgs c = Some (mkChan 100 false))
  /\ (∀ pwd options net,
        Forall timingOption options ->
        100 <= chanLimit net ->
        dial net = None ->
        loginWrite net = None ->
        loginSelect net = ConnectLogin true ->
        ∃ c, NewClient pwd options net = Returns (Ret c)
             /\ msgBufSize c = 100 /\ msgs c = Some (mkChan 100 false)).
Proof.
  refine (conj _ (conj _ (conj _ (conj _ (conj _ (conj _ _)))))).
  - intros size c Hs. unfold MessageBuffer. now rewrite decide_True.
  - intros pwd before size after net c1 Hs Hb. unfold NewClient.
    rewrite applyOptions_app, Hb. simpl. unfold MessageBuffer.
    now rewrite decide_True.
  - intros size c Hs. unfold MessageBuffer. now rewrite decide_False by lia.
  - intros pwd before size after net c Hs Hall H.
    apply NewClient_Ret in H as (c1 & E & _ & Hc).
    rewrite applyOptions_app in E.
    destruct (applyOptions before defaultClient) as [c0| |] eqn:Hb;
      try discriminate E.
    destruct (applyOptions_buffer before after size c0 Hs Hall Hb)
      as (c' & E' & Hsz).
    rewrite applyOptions_app, Hb in E'. rewrite E' in E. injection E as <-.
    destruct (connect_msgs (allocate c') pwd net) as [Hm Hbuf].
    rewrite Hc in Hm, Hbuf. simpl in Hm, Hbuf.
    rewrite Hbuf, Hm, Hsz. auto.
  - intros pwd before size after net c0 Hs Hall Hb Hd Hw Hl.
    destruct (applyOptions_buffer before after size c0 ltac:(lia) Hall Hb)
      as (c1 & E & Hsz).
    eexists. split.
    + apply (NewClient_opens pwd _ net c1 E); try assumption.
      rewrite Hsz. lia.
    + simpl. rewrite Hsz. auto.
  - intros pwd options net c Hall H.
    apply NewClient_Ret in H as (c1 & E & _ & Hc).
    destruct (applyOptions_timing options defaultClient Hall) as (c' & E' & Hsz).
    rewrite E' in E. injection E as <-.
    destruct (connect_msgs (allocate c') pwd net) as [Hm Hbuf].
    rewrite Hc in Hm, Hbuf. simpl in Hm, Hbuf, Hsz.
    rewrite Hbuf, Hm, Hsz. auto.
  - intros pwd options net Hall Hlim Hd Hw Hl.
    destruct (applyOptions_timing options defaultClient Hall) as (c1 & E & Hsz).
    change (msgBufSize defaultClient) with 100 in Hsz.
    eexists. split.
    + apply (NewClient_opens pwd options net c1 E); try assumption.
      rewrite Hsz. lia.
    + simpl. rewrite Hsz. auto.
Qed.

(** The options of the client tests: [MessageBuffer(0)] is rejected;
    [Timeout], [KeepAlive], [MessageBuffer(10)] open a client with a queue
    of ten; a [Timeout] alone opens one with the default queue of 100. *)
Lemma MessageBuffer_capacity_witness :
  NewClient secret ([] ++ [Some (MessageBuffer 0)]) friendlyNetwork
    = Returns (Fail ErrInvalidMessageBufferSize)
  /\ (∃ c, NewClient secret
             ([Some (Timeout second); Some (KeepAlive (second / 5))]
              ++ [Some (MessageBuffer 10)]) friendlyNetwork
           = Returns (Ret c)
           /\ msgBufSize c = 10 /\ msgs c = Some (mkChan 10 false))
  /\ (∃ c, NewClient secret [Some (Timeout second)] friendlyNetwork
           = Returns (Ret c)
           /\ msgBufSize c = 100 /\ msgs c = Some (mkChan 100 false)).
Proof.
  refine (conj _ (conj _ _)).
  - apply (proj1 (proj2 MessageBuffer_capacity) secret [] 0 []
             friendlyNetwork defaultClient).
    + lia.
    + reflexivity.
  - apply (proj1 (proj2 (proj2 (proj2 (proj2 MessageBuffer_capacity)))) secret
             [Some (Timeout second); Some (KeepAlive (second / 5))] 10 []
             friendlyNetwork
             (set_keepAlive (second / 5) (set_timeout second defaultClient))).
    + vm_compute. split; discriminate.
    + constructor.
    + reflexivity.
    + reflexivity.
    + reflexivity.
    + reflexivity.
  - apply (proj2 (proj2 (proj2 (proj2 (proj2 (proj2 MessageBuffer_capacity)))))
             secret [Some (Timeout second)] friendlyNetwork).
    + repeat constructor.
    + vm_compute. discriminate.
    + reflexivity.
    + reflexivity.
    + reflexivity.
Defined.

(** ** Close *)

(** An already closed client: [Close] returns at once, whatever the
    goroutines do. *)
Lemma Close_done (c : Client) (stuck : bool) :
  done c = Some true -> Close c stuck = Returns (Ret (c, None)).
Proof. intros Hd. unfold Close. rewrite Hd. reflexivity. Qed.

(** When the address cannot be dialled, [connect] leaves [conn] nil and the
    [Close] in [NewClient] calls a method on it. *)
Lemma NewClient_dial_error_panics (pwd : list byte)
    (options : list (option Option)) (net : network) (c1 : Client) (e : error) :
  applyOptions options defaultClient = Ret c1 ->
  dial net = Some e ->
  NewClient pwd options net = Returns Panic.
Proof.
  intros Ho Hd. unfold NewClient, connect. rewrite Ho, Hd.
  destruct (decide (0 <= msgBufSize c1 <= chanLimit net)); [|reflexivity].
  unfold Close. cbn [done allocate set_done set_msgs set_fragments set_conn
                     done_IsDone conn].
  rewrite bool_decide_eq_false_2 by (intros H; now apply H).
  rewrite andb_false_r. reflexivity.
Qed.

(** C8.  The code breaks the claim on a client that never completed
    opening because its address could not be dialled.  [connect] returns
    the error of [net.Dial] with [conn] still nil and before any goroutine
    is started.  [NewClient] then calls [Close], which finds the client
    not done, marks it done, has no goroutine to wait for, closes the
    broadcast queue and calls [Close] on the nil [conn]: [Close] panics
    where the claim says it is a no-op, and [NewClient] panics instead of
    returning the dial error.  An already closed client is closed again
    without error or panic. *)
Theorem Close_never_dialled_panics :
  ∀ (pwd : list byte) (stuck : bool),
    connect (allocate defaultClient) pwd unreachableNetwork
      = (allocate defaultClient, Fail (ErrNet 1))
    /\ conn (allocate defaultClient) = None
    /\ done (allocate defaultClient) = Some false
    /\ Close (allocate defaultClient) stuck = Returns Panic
    /\ NewClient pwd [] unreachableNetwork = Returns Panic
    /\ NewClient pwd [Some (Timeout second)] unreachableNetwork = Returns Panic.
Proof.
  intros pwd stuck. refine (conj _ (conj _ (conj _ (conj _ (conj _ _))))).
  - reflexivity.
  - reflexivity.
  - reflexivity.
  - unfold Close. cbn [done allocate set_done set_msgs set_fragments
                       done_IsDone conn defaultClient].
    rewrite andb_false_r. reflexivity.
  - apply (NewClient_dial_error_panics pwd [] unreachableNetwork
             defaultClient (ErrNet 1)); reflexivity.
  - apply (NewClient_dial_error_panics pwd [Some (Timeout second)]
             unreachableNetwork (set_timeout second defaultClient) (ErrNet 1));
      reflexivity.
Qed.

(** ** Reassembly of a multi-packet reply *)

Lemma byte_to_nat_of_nat (i : nat) :
  (i < 256)%nat -> byte_to_nat (byte_of_nat i) = i.
Proof.
  intros Hi. unfold byte_of_nat.
  pose proof (byte_to_Z_of_Z (Z.of_nat i)) as H.
  rewrite Z.mod_small in H by lia.
  unfold byte_to_Z in H. unfold byte_to_nat. lia.
Qed.

Lemma byte_of_nat_inj (i j : nat) :
  (i < 256)%nat -> (j < 256)%nat -> byte_of_nat i = byte_of_nat j -> i = j.
Proof.
  intros Hi Hj H.
  rewrite <- (byte_to_nat_of_nat i Hi), <- (byte_to_nat_of_nat j Hj).
  now f_equal.
Qed.

(** The server's datagram for one part decodes to that part. *)
Lemma parse_createMultiResponse (message : list byte) (s max current : byte) :
  parseResponse (createMultiResponse message s max current)
    = Ret (CommandResponse (commandResponse.mk message s max current true)).
Proof.
  unfold createMultiResponse.
  exact (parseResponse_frame commandType s (x00 :: max :: current :: message)).
Qed.

Lemma expected_fold (l : list nat) (acc : gset byte) (b : byte) :
  b ∈ fold_left (fun m i => {[ byte_of_nat i ]} ∪ m) l acc
  <-> b ∈ acc \/ ∃ i, i ∈ l /\ b = byte_of_nat i.
Proof.
  revert acc. induction l as [|i l IH]; intros acc; simpl.
  - split; [auto|]. intros [H|(i & Hi & _)]; [exact H|]. inversion Hi.
  - rewrite IH, elem_of_union, elem_of_singleton. split.
    + intros [[->|H]|(j & Hj & ->)]; eauto using list_elem_of_here, list_elem_of_further.
    + intros [H|(j & Hj & ->)]; [auto|].
      apply elem_of_cons in Hj as [->|Hj]; eauto.
Qed.

(** An entry is completed exactly when its set of missing indices is
    empty. *)
Lemma completed_iff_none_missing (fm : fragmentedResponse.t) :
  fragmentedResponse.completed fm = true
  <-> fragmentedResponse.expected fm = ∅.
Proof.
  unfold fragmentedResponse.completed.
  rewrite bool_decide_eq_true, size_empty_iff. apply leibniz_equiv_iff.
Qed.

Section Reassembly.

(** The parts of one reply; their number fits the size byte. *)
Variable bodies : list (list byte).
Hypothesis bodies_fit : (length bodies < 256)%nat.

(** A new entry for the reply holds nothing: every index is missing and
    every slot is empty. *)
Lemma newFragmentedResponse_holds :
  holds bodies [] (newFragmentedResponse (byte_of_nat (length bodies))).
Proof.
  unfold holds, newFragmentedResponse.
  cbn [fragmentedResponse.parts fragmentedResponse.expected].
  rewrite byte_to_nat_of_nat by exact bodies_fit.
  refine (conj _ (conj _ _)).
  - apply length_replicate.
  - intros b. rewrite expected_fold. split.
    + intros [H|(i & Hi & ->)]; [now apply not_elem_of_empty in H|].
      apply elem_of_seq in Hi. exists i.
      repeat split; [lia|apply not_elem_of_nil].
    + intros (i & Hi & _ & ->). right. exists i. split; [|reflexivity].
      apply elem_of_seq. lia.
  - intros j Hj. rewrite decide_False by apply not_elem_of_nil.
    now apply lookup_replicate_2.
Qed.

(** Adding one more part to an entry that holds [fed]. *)
Lemma add_holds (s : byte) (fed : list nat) (fm : fragmentedResponse.t)
    (i : nat) :
  holds bodies fed fm ->
  (i < length bodies)%nat ->
  ∃ fm', fragmentedResponse.add fm (replyPart s bodies i) = Ret fm'
         /\ holds bodies (i :: fed) fm'.
Proof.
  intros (Hlen & Hexp & Hparts) Hi.
  unfold fragmentedResponse.add, replyPart.
  cbn [commandResponse.multiIndex commandResponse.msg].
  rewrite byte_to_nat_of_nat by lia.
  rewrite decide_True by lia.
  eexists. split; [reflexivity|].
  unfold holds. cbn [fragmentedResponse.parts fragmentedResponse.expected].
  refine (conj _ (conj _ _)).
  - now rewrite length_insert.
  - intros b. rewrite elem_of_difference, elem_of_singleton, Hexp. split.
    + intros [(j & Hj & Hnf & ->) Hne]. exists j. repeat split; [exact Hj|].
      intros [->|Hin]%elem_of_cons; [now apply Hne|now apply Hnf].
    + intros (j & Hj & Hnf & ->). split.
      * exists j. repeat split; [exact Hj|].
        intros Hin. apply Hnf. now apply list_elem_of_further.
      * intros Heq. apply byte_of_nat_inj in Heq; [|lia..].
        subst j. apply Hnf, list_elem_of_here.
  - intros j Hj. destruct (decide (j = i)) as [->|Hne].
    + rewrite list_lookup_insert_eq by lia.
      now rewrite decide_True by apply list_elem_of_here.
    + rewrite list_lookup_insert_ne by auto. rewrite Hparts by exact Hj.
      f_equal. destruct (decide (j ∈ fed)) as [Hin|Hnin].
      * now rewrite decide_True by now apply list_elem_of_further.
      * rewrite decide_False; [reflexivity|].
        intros [->|Hin]%elem_of_cons; [now apply Hne|now apply Hnin].
Qed.

(** An entry that holds [fed] is completed exactly when every index has
    been fed. *)
Lemma holds_completed (fed : list nat) (fm : fragmentedResponse.t) :
  holds bodies fed fm ->
  fragmentedResponse.completed fm = true
  <-> ∀ j, (j < length bodies)%nat -> j ∈ fed.
Proof.
  intros (_ & Hexp & _). rewrite completed_iff_none_missing. split.
  - intros He j Hj. destruct (decide (j ∈ fed)) as [|Hn]; [assumption|].
    assert (H : byte_of_nat j ∈ fragmentedResponse.expected fm)
      by (apply Hexp; eauto).
    rewrite He in H. now apply not_elem_of_empty in H.
  - intros Hall. apply set_eq. intros b. rewrite Hexp. split.
    + intros (i & Hi & Hn & _). destruct Hn. now apply Hall.
    + intros H. now apply not_elem_of_empty in H.
Qed.

(** Once every index has been fed, the message is the reply. *)
Lemma holds_message (fed : list nat) (fm : fragmentedResponse.t) :
  holds bodies fed fm ->
  (∀ j, (j < length bodies)%nat -> j ∈ fed) ->
  fragmentedResponse.message fm = concat bodies.
Proof.
  intros (Hlen & _ & Hparts) Hall. unfold fragmentedResponse.message.
  f_equal. apply list_eq. intros j.
  destruct (le_lt_dec (length bodies) j) as [Hge|Hlt].
  - rewrite !lookup_ge_None_2 by lia. reflexivity.
  - rewrite Hparts by exact Hlt. rewrite decide_True by auto.
    destruct (lookup_lt_is_Some_2 bodies j Hlt) as [b Hb]. now rewrite Hb.
Qed.

(** The receiver handling one part under the expected sequence number. *)
Lemma handle_part (c : Client) (fed : list nat) (i : nat) :
  holds bodies fed (entry c (Client_seq c) (length bodies)) ->
  (i < length bodies)%nat ->
  ∃ fm',
    holds bodies (i :: fed) fm'
    /\ handleCommandResponse c (replyPart (Client_seq c) bodies i) =
         if fragmentedResponse.completed fm' then
           Ret (incr (set_fragments (<[Client_seq c := fm']> (fragments c)) c),
                Some (fragmentedResponse.message fm'))
         else
           Ret (set_fragments (<[Client_seq c := fm']> (fragments c)) c, None).
Proof.
  intros Hh Hi.
  destruct (add_holds (Client_seq c) fed _ i Hh Hi) as (fm' & Ha & Hh').
  exists fm'. split; [exact Hh'|].
  unfold handleCommandResponse.
  check_passes.
  change (commandResponse.multi (replyPart _ _ _)) with true.
  cbn [negb]. cbv iota.
  change (commandResponse.seq (replyPart (Client_seq c) bodies i))
    with (Client_seq c).
  change (commandResponse.multiSize (replyPart (Client_seq c) bodies i))
    with (byte_of_nat (length bodies)).
  unfold entry in Ha.
  destruct (fragments c !! Client_seq c); simpl in Ha; rewrite Ha; reflexivity.
Qed.

(** The parts still to come, arriving in any order, complete the entry at
    the last one and at no earlier one. *)
Lemma run_arrival (rest : list nat) :
  ∀ (fed : list nat) (c : Client),
    holds bodies fed (entry c (Client_seq c) (length bodies)) ->
    NoDup rest ->
    (∀ i, i ∈ rest -> (i < length bodies)%nat /\ i ∉ fed) ->
    (∀ j, (j < length bodies)%nat -> j ∈ fed \/ j ∈ rest) ->
    rest ≠ [] ->
    ∃ c', run c (arrival (Client_seq c) bodies rest)
            = Ret (c', [concat bodies])
          /\ ctr c' = (ctr c + 1) mod 2 ^ 64.
Proof.
  induction rest as [|i rest IH]; intros fed c Hh Hnd Hin Hall Hne;
    [now destruct Hne|].
  destruct (Hin i (list_elem_of_here _ _)) as [Hi Hif].
  destruct (handle_part c fed i Hh Hi) as (fm' & Hh' & Hhandle).
  apply NoDup_cons in Hnd as [Hir Hnd].
  assert (Hall' : ∀ j, (j < length bodies)%nat -> j ∈ i :: fed \/ j ∈ rest).
  { intros j Hj. destruct (Hall j Hj) as [H|[->|H]%elem_of_cons].
    - left. now apply list_elem_of_further.
    - left. apply list_elem_of_here.
    - now right. }
  unfold arrival. rewrite fmap_cons. cbn [run step].
  rewrite Hhandle.
  destruct rest as [|i' rest'].
  - (* the last part: the entry is complete *)
    assert (Hc : fragmentedResponse.completed fm' = true).
    { apply (holds_completed _ _ Hh'). intros j Hj.
      destruct (Hall' j Hj) as [H|H]; [exact H|inversion H]. }
    rewrite Hc. cbn [mbind outcome_bind fmap list_fmap run app].
    rewrite (holds_message _ _ Hh') by
      (intros j Hj; destruct (Hall' j Hj) as [H|H]; [exact H|inversion H]).
    eexists. split; reflexivity.
  - (* an earlier part: the index of the next one is still missing *)
    assert (Hc : fragmentedResponse.completed fm' = false).
    { apply not_true_is_false. intros Hc.
      destruct (Hin i' (list_elem_of_further _ _ _ (list_elem_of_here _ _)))
        as [Hi' Hif'].
      pose proof (proj1 (holds_completed _ _ Hh') Hc i' Hi') as H.
      apply elem_of_cons in H as [->|H]; [|now apply Hif'].
      apply Hir, list_elem_of_here. }
    rewrite Hc. cbn [mbind outcome_bind].
    set (c1 := set_fragments _ c).
    destruct (IH (i :: fed) c1) as (c' & Hrun & Hctr).
    + unfold entry, c1. cbn [fragments set_fragments].
      change (Client_seq (set_fragments _ c)) with (Client_seq c).
      rewrite lookup_insert_eq. exact Hh'.
    + exact Hnd.
    + intros j Hj. destruct (Hin j (list_elem_of_further _ _ _ Hj)) as [Hjk Hjf].
      split; [exact Hjk|].
      intros [->|H]%elem_of_cons; [now apply Hir|now apply Hjf].
    + exact Hall'.
    + discriminate.
    + change (Client_seq c1) with (Client_seq c) in Hrun.
      unfold arrival in Hrun. rewrite Hrun. cbn [mbind outcome_bind app].
      exists c'. split; [reflexivity|exact Hctr].
Qed.

End Reassembly.

(** Reassembly under a sequence number without an entry.  When the
    fragment map has no entry for the expected sequence number, the [k]
    parts of a reply (1 <= k <= 255), arriving in any order, are
    reassembled: nothing is delivered before the last part, and the last
    part delivers the bodies joined in index order and advances the
    counter. *)
Lemma reassembly_without_stale_entry (c : Client) (bodies : list (list byte))
    (order : list nat) :
  fragments c !! Client_seq c = None ->
  (0 < length bodies < 256)%nat ->
  order ≡ₚ seq 0 (length bodies) ->
  ∃ c', run c (arrival (Client_seq c) bodies order)
          = Ret (c', [concat bodies])
        /\ ctr c' = (ctr c + 1) mod 2 ^ 64.
Proof.
  intros Hnone [Hpos Hk] Hperm.
  apply (run_arrival bodies Hk order []).
  - unfold entry. rewrite Hnone. now apply newFragmentedResponse_holds.
  - rewrite Hperm. apply NoDup_seq.
  - intros i Hi. rewrite Hperm in Hi. apply elem_of_seq in Hi.
    split; [lia|apply not_elem_of_nil].
  - intros j Hj. right. rewrite Hperm. apply elem_of_seq. lia.
  - intros ->. apply Permutation_nil_l in Hperm.
    destruct bodies; [simpl in Hpos; lia|discriminate Hperm].
Qed.

(** The six parts of the multi-packet test of client_test.go, shuffled as
    the mock server may send them. *)
Example reassembly_six_parts :
  ∃ c', run connectedClient
          (arrival x00 [secret; doSomething; secret; []; doSomething; secret]
                   [4; 0; 5; 2; 1; 3]%nat)
        = Ret (c', [secret ++ doSomething ++ secret ++ doSomething ++ secret])
        /\ ctr c' = 1.
Proof.
  apply (reassembly_without_stale_entry connectedClient
           [secret; doSomething; secret; []; doSomething; secret]
           [4; 0; 5; 2; 1; 3]%nat).
  - reflexivity.
  - simpl. lia.
  - apply (Permutation_cons_app [0; 1; 2; 3]%nat [5]%nat).
    apply (Permutation_cons_app [] [1; 2; 3; 5]%nat).
    apply (Permutation_cons_app [1; 2; 3]%nat []).
    apply (Permutation_cons_app [1]%nat [3]%nat).
    reflexivity.
Qed.

(** C5.  The code breaks the claim once a sequence number comes around
    again.  A client receives the two-part reply "a", "b" under sequence
    number 0 and then 255 empty replies: the counter is 256, the exposed
    sequence number 0 again, and the completed entry for sequence number 0
    is still in the fragment map.  Of the next reply, announced in two
    parts, part 1 ("d") arrives alone.  It lands in the old entry, which
    has no index missing, so [completed] holds: the counter advances to
    257 and "ad" is published although one of the two parts of the reply
    has not arrived.  On a client without the old entry the same part is
    stored, the counter stays and nothing is published. *)
Theorem counter_advances_on_partial_reply :
  ('(c, _) ← run connectedClient onceAround;
   '(c', out) ← handleCommandResponse c (replyPart x00 secondReply 1);
   Ret (ctr c, Client_seq c, ctr c', Client_seq c', out))
    = Ret (256, x00, 257, x01, Some ["a"; "d"]%byte)
  /\ replyPart x00 secondReply 1
     = commandResponse.mk ["d"%byte] x00 x02 x01 true
  /\ ('(c', out) ← handleCommandResponse connectedClient
                     (replyPart x00 secondReply 1);
      Ret (ctr connectedClient, ctr c', out))
     = Ret (0, 0, None).
Proof.
  vm_compute. repeat split.
Qed.

(** C2.  The code breaks the claim once a sequence number comes around
    again.  [handleCommandResponse] never removes a completed entry from
    the fragment map.  A client receives the two-part reply "a", "b" under
    sequence number 0 and then 255 empty replies, so that the expected
    sequence number is 0 again; the parts "c", "d" of the next reply arrive
    in the order 1, 0.  Part 1 lands in the old entry, which has no index
    missing, and the caller is handed "ad" at once; part 0 is then dropped
    as stale.  On a client without the old entry the same two parts give
    "cd". *)
Theorem stale_entry_breaks_reassembly :
  snd <$> run connectedClient (onceAround ++ arrival x00 secondReply [1; 0]%nat)
    = Ret ([["a"; "b"]%byte] ++ replicate 255 [] ++ [["a"; "d"]%byte])
  /\ snd <$> run connectedClient (arrival x00 secondReply [1; 0]%nat)
     = Ret [concat secondReply]
  /\ concat secondReply = ["c"; "d"]%byte
  /\ (fragments <$> (fst <$> run connectedClient onceAround))
     = Ret {[ x00 := fragmentedResponse.mk ∅ firstReply ]}
  /\ (Client_seq <$> (fst <$> run connectedClient onceAround)) = Ret x00.
Proof.
  vm_compute. repeat split.
Qed.


(* ===================================================================== *)
(** * Further properties of the code *)
(* ===================================================================== *)

(** ** The encoder *)

(** X1.  Every packet of a known type encodes to a datagram that starts
    with "BE", stores the CRC32 of its payload in bytes 2 to 5, has 0xFF at
    byte 6 and the payload type at byte 7, followed by the password (login),
    the sequence number and the command (command) or the sequence number
    alone (server-message acknowledgement). *)
Theorem bytes_well_framed (p : packet.t) (raw : list byte) :
  packet.bytes p = Ret raw ->
  take 2 raw = [x42; x45]
  /\ storedChecksum raw = Ret (payloadChecksum raw)
  /\ raw !! 6%nat = Some xff
  /\ raw !! 7%nat = Some (packet.payloadType p)
  /\ drop 8 raw =
       (if decide (packet.payloadType p = loginType) then packet.message p
        else if decide (packet.payloadType p = commandType)
             then packet.sequenceNumber p :: packet.message p
             else [packet.sequenceNumber p]).
Proof.
  unfold packet.bytes, packet.payload. intros H.
  assert (Hrt : ∀ payload,
            storedChecksum (packet.header payload ++ payload)
            = Ret (payloadChecksum (packet.header payload ++ payload))).
  { intros payload. unfold storedChecksum, payloadChecksum, packet.header.
    change (take 4 (drop 2 _)) with
      (LittleEndian.PutUint32 (crc32.ChecksumIEEE payload)).
    change (drop 6 _) with payload.
    apply Uint32_PutUint32, ChecksumIEEE_range. }
  destruct (decide (packet.payloadType p = loginType)) as [H0|H0].
  { cbn [mbind outcome_bind] in H. injection H as <-.
    split; [reflexivity|]. split; [apply Hrt|]. repeat split. }
  destruct (decide (packet.payloadType p = commandType)) as [H1|H1].
  { cbn [mbind outcome_bind] in H. injection H as <-.
    split; [reflexivity|]. split; [apply Hrt|]. repeat split. }
  destruct (decide (packet.payloadType p = serverMessageType)) as [H2|H2];
    [|discriminate H].
  cbn [mbind outcome_bind] in H. injection H as <-.
  split; [reflexivity|]. split; [apply Hrt|]. repeat split.
Qed.

(** The keep-alive packet of the packet tests. *)
Lemma bytes_well_framed_witness :
  take 2 [x42; x45; xa7; x18; xaf; x5f; xff; x01; x04] = [x42; x45]
  /\ storedChecksum [x42; x45; xa7; x18; xaf; x5f; xff; x01; x04]
     = Ret (payloadChecksum [x42; x45; xa7; x18; xaf; x5f; xff; x01; x04])
  /\ [x42; x45; xa7; x18; xaf; x5f; xff; x01; x04] !! 6%nat = Some xff
  /\ [x42; x45; xa7; x18; xaf; x5f; xff; x01; x04] !! 7%nat
     = Some (packet.payloadType (newCommandPacket [] x04))
  /\ drop 8 [x42; x45; xa7; x18; xaf; x5f; xff; x01; x04] = [x04].
Proof.
  apply (bytes_well_framed (newCommandPacket [] x04)).
  vm_compute. reflexivity.
Defined.

(** X2.  Encoding never panics, and it fails exactly for a payload type
    other than login, command and server message, always with
    UnknownPacketType. *)
Theorem bytes_fails_iff (p : packet.t) :
  packet.bytes p ≠ Panic
  /\ (∀ e, packet.bytes p = Fail e -> e = ErrUnknownPacketType)
  /\ (packet.bytes p = Fail ErrUnknownPacketType
      <-> packet.payloadType p ≠ loginType
          /\ packet.payloadType p ≠ commandType
          /\ packet.payloadType p ≠ serverMessageType).
Proof.
  unfold packet.bytes, packet.payload.
  destruct (decide (packet.payloadType p = loginType)) as [H0|H0].
  { cbn [mbind outcome_bind]. repeat split; try discriminate.
    intros (H & _). now destruct H. }
  destruct (decide (packet.payloadType p = commandType)) as [H1|H1].
  { cbn [mbind outcome_bind]. repeat split; try discriminate.
    intros (_ & H & _). now destruct H. }
  destruct (decide (packet.payloadType p = serverMessageType)) as [H2|H2].
  { cbn [mbind outcome_bind]. repeat split; try discriminate.
    intros (_ & _ & H). now destruct H. }
  cbn [mbind outcome_bind]. repeat split; try assumption; try discriminate.
  now intros e [= <-].
Qed.

(** ** The decoder *)

(** What [newCommandResponse] returns, by the shape of the body. *)
Lemma newCommandResponse_Ret (s : byte) (rest : list byte)
    (cr : commandResponse.t) :
  newCommandResponse (s :: rest) = Ret cr ->
  commandResponse.seq cr = s
  /\ (if commandResponse.multi cr
      then rest !! 0%nat = Some multiPacketType
           /\ rest !! 1%nat = Some (commandResponse.multiSize cr)
           /\ rest !! 2%nat = Some (commandResponse.multiIndex cr)
           /\ commandResponse.msg cr = drop 3 rest
      else rest !! 0%nat ≠ Some multiPacketType
           /\ commandResponse.msg cr = rest
           /\ commandResponse.multiSize cr = x00
           /\ commandResponse.multiIndex cr = x00).
Proof.
  destruct rest as [|r1 rest].
  { intros [= <-]. repeat split. discriminate. }
  unfold newCommandResponse.
  change (index _ 0) with (Ret s).
  change (slice_from (s :: r1 :: rest) 1) with (Ret (r1 :: rest)).
  change (index _ 1) with (Ret r1).
  cbn [mbind outcome_bind].
  rewrite decide_False by (simpl; lia).
  destruct (decide (r1 = multiPacketType)) as [->|Hne].
  - destruct rest as [|r2 [|r3 rest]]; try discriminate.
    intros [= <-]. repeat split.
  - intros [= <-]. repeat split. intros [= ->]. now destruct Hne.
Qed.

(** X3.  A successful decode vouches for the datagram: it has at least
    nine bytes, starts with "BE", has 0xFF at byte 6 and a CRC32 field that
    matches its payload; and every field of the decoded value is read from
    its place: the type from byte 7, the login result or the sequence
    number from byte 8, a multi-packet header (0x00, size, index) from
    bytes 9 to 11 and the text from what follows.  A response decoded as
    not multi-packet never has a text starting with 0x00. *)
Theorem parseResponse_sound (raw : list byte) (r : response) :
  parseResponse raw = Ret r ->
  (9 <= length raw)%nat
  /\ take 2 raw = [x42; x45]
  /\ raw !! 6%nat = Some xff
  /\ storedChecksum raw = Ret (payloadChecksum raw)
  /\ match r with
     | LoginResponse success =>
         raw !! 7%nat = Some loginType
         /\ raw !! 8%nat = Some (if success then loginSuccess else loginFailed)
     | CommandResponse cr =>
         raw !! 7%nat = Some commandType
         /\ raw !! 8%nat = Some (commandResponse.seq cr)
         /\ (if commandResponse.multi cr
             then raw !! 9%nat = Some multiPacketType
                  /\ raw !! 10%nat = Some (commandResponse.multiSize cr)
                  /\ raw !! 11%nat = Some (commandResponse.multiIndex cr)
                  /\ commandResponse.msg cr = drop 12 raw
             else raw !! 9%nat ≠ Some multiPacketType
                  /\ commandResponse.msg cr = drop 9 raw
                  /\ head (commandResponse.msg cr) ≠ Some multiPacketType
                  /\ commandResponse.multiSize cr = x00
                  /\ commandResponse.multiIndex cr = x00)
     | ServerMessage sm =>
         raw !! 7%nat = Some serverMessageType
         /\ raw !! 8%nat = Some (serverMessage.seq sm)
         /\ serverMessage.msg sm = drop 9 raw
     end.
Proof.
  intros H.
  destruct (le_lt_dec 9 (length raw)) as [Hlen|Hlen];
    [|rewrite parseResponse_short in H by exact Hlen; discriminate H].
  split; [exact Hlen|].
  destruct (nine_bytes raw Hlen)
    as (a0 & a1 & f0 & f1 & f2 & f3 & m & ty & b0 & body & ->).
  rewrite parseResponse_layout in H.
  unfold storedChecksum, payloadChecksum. simpl take. simpl drop.
  change ((?l : list byte) !! 6%nat) with (Some m).
  change ((?l : list byte) !! 7%nat) with (Some ty).
  change ((?l : list byte) !! 8%nat) with (Some b0).
  change ((?l : list byte) !! 9%nat) with (body !! 0%nat).
  change ((?l : list byte) !! 10%nat) with (body !! 1%nat).
  change ((?l : list byte) !! 11%nat) with (body !! 2%nat).
  destruct (decide ([a0; a1] ≠ [x42; x45])) as [Hm|Hm]; [discriminate H|].
  apply dec_stable in Hm. split; [exact Hm|].
  destruct (decide (m ≠ xff)) as [He|He]; [discriminate H|].
  apply dec_stable in He. subst m. split; [reflexivity|].
  destruct (LittleEndian.Uint32 [f0; f1; f2; f3]) as [stored| |] eqn:E;
    try discriminate E.
  cbn [mbind outcome_bind] in H.
  destruct (decide (crc32.ChecksumIEEE (xff :: ty :: b0 :: body) ≠ stored))
    as [Hc|Hc]; [discriminate H|].
  apply dec_stable in Hc. subst stored. split; [reflexivity|].
  destruct (decide (ty = loginType)) as [->|H0].
  { unfold loginResponse in H. change (index _ 0) with (Ret b0) in H.
    cbn [mbind outcome_bind] in H.
    destruct (decide (b0 = loginFailed)) as [->|];
      [injection H as <-; split; reflexivity|].
    destruct (decide (b0 = loginSuccess)) as [->|];
      [injection H as <-; split; reflexivity|discriminate H]. }
  destruct (decide (ty = commandType)) as [->|H1].
  { destruct (newCommandResponse (b0 :: body)) as [cr| |] eqn:Ecr;
      try discriminate H.
    injection H as <-.
    apply newCommandResponse_Ret in Ecr as [Hs Hcr].
    split; [reflexivity|]. split; [now rewrite Hs|].
    destruct (commandResponse.multi cr).
    - destruct Hcr as (? & ? & ? & ->). repeat split; assumption.
    - destruct Hcr as (Hh & -> & ? & ?). repeat split; try assumption.
      destruct body; [discriminate|exact Hh]. }
  destruct (decide (ty = serverMessageType)) as [->|H2]; [|discriminate H].
  injection H as <-. repeat split.
Qed.

(** The multi-packet datagram for part 1 of 2 with text "secret". *)
Lemma parseResponse_sound_witness :
  (9 <= length (createMultiResponse secret x07 x02 x01))%nat
  /\ take 2 (createMultiResponse secret x07 x02 x01) = [x42; x45]
  /\ createMultiResponse secret x07 x02 x01 !! 6%nat = Some xff
  /\ storedChecksum (createMultiResponse secret x07 x02 x01)
     = Ret (payloadChecksum (createMultiResponse secret x07 x02 x01))
  /\ createMultiResponse secret x07 x02 x01 !! 7%nat = Some commandType
  /\ createMultiResponse secret x07 x02 x01 !! 8%nat = Some x07
  /\ createMultiResponse secret x07 x02 x01 !! 9%nat = Some multiPacketType
  /\ createMultiResponse secret x07 x02 x01 !! 10%nat = Some x02
  /\ createMultiResponse secret x07 x02 x01 !! 11%nat = Some x01
  /\ secret = drop 12 (createMultiResponse secret x07 x02 x01).
Proof.
  apply (parseResponse_sound (createMultiResponse secret x07 x02 x01)
           (CommandResponse (commandResponse.mk secret x07 x02 x01 true))).
  vm_compute. reflexivity.
Defined.

(** X4.  The decoder returns no error but its six own, and it reports
    InvalidLoginResponse exactly for a well-framed login datagram whose
    result byte is neither 0x00 nor 0x01. *)
Theorem parseResponse_errors (raw : list byte) :
  (∀ e, parseResponse raw = Fail e ->
        e = ErrInvalidPacketSize \/ e = ErrInvalidHeader
        \/ e = ErrInvalidEndOfHeader \/ e = ErrInvalidChecksum
        \/ e = ErrUnknownPacketType \/ e = ErrInvalidLoginResponse)
  /\ (parseResponse raw = Fail ErrInvalidLoginResponse
      <-> (9 <= length raw)%nat
          /\ take 2 raw = [x42; x45]
          /\ raw !! 6%nat = Some xff
          /\ storedChecksum raw = Ret (payloadChecksum raw)
          /\ raw !! 7%nat = Some loginType
          /\ raw !! 8%nat ≠ Some loginFailed
          /\ raw !! 8%nat ≠ Some loginSuccess).
Proof.
  destruct (le_lt_dec 9 (length raw)) as [Hlen|Hlen].
  2:{ rewrite parseResponse_short by exact Hlen. split.
      - intros e [= <-]. auto.
      - split; [discriminate|]. intros (H & _). lia. }
  destruct (nine_bytes raw Hlen)
    as (a0 & a1 & f0 & f1 & f2 & f3 & m & ty & b0 & body & ->).
  rewrite parseResponse_layout.
  unfold storedChecksum, payloadChecksum. simpl take. simpl drop.
  change ((?l : list byte) !! 6%nat) with (Some m).
  change ((?l : list byte) !! 7%nat) with (Some ty).
  change ((?l : list byte) !! 8%nat) with (Some b0).
  destruct (decide ([a0; a1] ≠ [x42; x45])) as [Hm|Hm].
  { split; [intros e [= <-]; auto|]. split; [discriminate|].
    intros (_ & H & _). now destruct Hm. }
  destruct (decide (m ≠ xff)) as [He|He].
  { split; [intros e [= <-]; auto 6|]. split; [discriminate|].
    intros (_ & _ & [= ->] & _). now destruct He. }
  apply dec_stable in Hm, He. subst m.
  destruct (LittleEndian.Uint32 [f0; f1; f2; f3]) as [stored| |] eqn:E;
    try discriminate E.
  cbn [mbind outcome_bind].
  destruct (decide (crc32.ChecksumIEEE (xff :: ty :: b0 :: body) ≠ stored))
    as [Hc|Hc].
  { split; [intros e [= <-]; auto 6|]. split; [discriminate|].
    intros (_ & _ & _ & [= ->] & _). now destruct Hc. }
  apply dec_stable in Hc. subst stored.
  destruct (decide (ty = loginType)) as [->|H0].
  { unfold loginResponse. change (index _ 0) with (Ret b0).
    cbn [mbind outcome_bind].
    destruct (decide (b0 = loginFailed)) as [->|Hf].
    { split; [discriminate|]. split; [discriminate|].
      intros (_ & _ & _ & _ & _ & H & _). now destruct H. }
    destruct (decide (b0 = loginSuccess)) as [->|Hs].
    { split; [discriminate|]. split; [discriminate|].
      intros (_ & _ & _ & _ & _ & _ & H). now destruct H. }
    split; [intros e [= <-]; auto 8|]. split; [|reflexivity].
    intros _. repeat split; try assumption; intros [= ->]; tauto. }
  destruct (decide (ty = commandType)) as [->|H1].
  { destruct (newCommandResponse (b0 :: body)) as [cr| |] eqn:Ecr.
    - split; [discriminate|]. split; [discriminate|].
      intros (_ & _ & _ & _ & [=] & _).
    - exfalso. unfold newCommandResponse in Ecr.
      change (index _ 0) with (Ret b0) in Ecr.
      change (slice_from (b0 :: body) 1) with (Ret body) in Ecr.
      cbn [mbind outcome_bind] in Ecr.
      destruct (decide (length body = 0%nat)); [discriminate Ecr|].
      destruct body as [|r1 [|r2 [|r3 body]]]; simpl in Ecr;
        try discriminate Ecr;
        destruct (decide (r1 = multiPacketType)); discriminate Ecr.
    - split; [discriminate|]. split; [discriminate|].
      intros (_ & _ & _ & _ & [=] & _). }
  destruct (decide (ty = serverMessageType)) as [->|H2].
  { split; [discriminate|]. split; [discriminate|].
    intros (_ & _ & _ & _ & [=] & _). }
  split; [intros e [= <-]; auto 8|]. split; [discriminate|].
  intros (_ & _ & _ & _ & [= ->] & _). now destruct H0.
Qed.

(** The login response with result byte 0x02 of the parser's test table. *)
Lemma parseResponse_errors_witness :
  parseResponse [x42; x45; xd3; x8c; xd7; xaf; xff; x00; x02]
    = Fail ErrInvalidLoginResponse.
Proof.
  apply (proj2 (parseResponse_errors _)).
  refine (conj _ (conj _ (conj _ (conj _ (conj _ (conj _ _)))))).
  - simpl. lia.
  - reflexivity.
  - reflexivity.
  - vm_compute. reflexivity.
  - reflexivity.
  - discriminate.
  - discriminate.
Defined.

(** X5.  Every well-framed datagram of a known type decodes, except a
    command response that stops inside a multi-packet header: a server
    message to its sequence number and text; a command response whose byte
    9 is absent or not 0x00 to a plain response with the text from byte 9;
    one whose byte 9 is 0x00 and that has bytes 10 and 11 to a part with
    that size and index and the text from byte 12; a login response with
    result 0x00 or 0x01 to false or true. *)
Theorem parseResponse_complete (raw : list byte) (s : byte) :
  (9 <= length raw)%nat ->
  take 2 raw = [x42; x45] ->
  raw !! 6%nat = Some xff ->
  storedChecksum raw = Ret (payloadChecksum raw) ->
  raw !! 8%nat = Some s ->
  (raw !! 7%nat = Some serverMessageType ->
     parseResponse raw = Ret (ServerMessage (serverMessage.mk s (drop 9 raw))))
  /\ (raw !! 7%nat = Some commandType ->
      raw !! 9%nat ≠ Some multiPacketType ->
      parseResponse raw
        = Ret (CommandResponse (commandResponse.mk (drop 9 raw) s x00 x00 false)))
  /\ (∀ size idx,
        raw !! 7%nat = Some commandType ->
        raw !! 9%nat = Some multiPacketType ->
        raw !! 10%nat = Some size ->
        raw !! 11%nat = Some idx ->
        parseResponse raw
          = Ret (CommandResponse (commandResponse.mk (drop 12 raw) s size idx true)))
  /\ (raw !! 7%nat = Some loginType ->
      (s = loginFailed -> parseResponse raw = Ret (LoginResponse false))
      /\ (s = loginSuccess -> parseResponse raw = Ret (LoginResponse true))).
Proof.
  intros Hlen Hm He Hc Hs.
  destruct (nine_bytes raw Hlen)
    as (a0 & a1 & f0 & f1 & f2 & f3 & m & ty & b0 & body & ->).
  rewrite parseResponse_layout.
  unfold storedChecksum, payloadChecksum in Hc. simpl take in Hc, Hm.
  simpl drop in Hc.
  injection He as ->. injection Hs as ->.
  change ((?l : list byte) !! 7%nat) with (Some ty).
  change ((?l : list byte) !! 9%nat) with (body !! 0%nat).
  change ((?l : list byte) !! 10%nat) with (body !! 1%nat).
  change ((?l : list byte) !! 11%nat) with (body !! 2%nat).
  simpl drop.
  rewrite decide_False by (intros H; now apply H).
  check_passes. rewrite Hc. cbn [mbind outcome_bind]. check_passes.
  refine (conj _ (conj _ (conj _ _))).
  - intros [= ->]. rewrite !decide_False by discriminate.
    now rewrite decide_True by reflexivity.
  - intros [= ->] Hh. rewrite decide_False by discriminate.
    rewrite decide_True by reflexivity.
    rewrite newCommandResponse_plain; [reflexivity|].
    destruct body; [discriminate|exact Hh].
  - intros size idx [= ->] H9 H10 H11.
    rewrite decide_False by discriminate.
    rewrite decide_True by reflexivity.
    destruct body as [|r1 [|r2 [|r3 body]]]; try discriminate.
    injection H9 as ->. injection H10 as ->. injection H11 as ->.
    reflexivity.
  - intros [= ->]. rewrite decide_True by reflexivity.
    split; intros ->; reflexivity.
Qed.

(** The server message of the parser's test table. *)
Lemma parseResponse_complete_witness :
  parseResponse ([x42; x45; x50; x68; xa4; xc5; xff; x02; x07] ++ secret)
    = Ret (ServerMessage
             (serverMessage.mk x07
                (drop 9 ([x42; x45; x50; x68; xa4; xc5; xff; x02; x07] ++ secret)))).
Proof.
  destruct (parseResponse_complete
              ([x42; x45; x50; x68; xa4; xc5; xff; x02; x07] ++ secret) x07)
    as [H _].
  - simpl. lia.
  - reflexivity.
  - reflexivity.
  - vm_compute. reflexivity.
  - reflexivity.
  - apply H. reflexivity.
Defined.

(** X6.  The datagrams the mock server builds decode to what it put in:
    [createMultiResponse] to a multi-packet part with the given text,
    sequence number, size and index; [createServerMessage] to a server
    message with the given sequence number and the text "server broadcast"
    followed by that number in decimal. *)
Theorem server_datagrams_decode :
  (∀ message s max current,
     parseResponse (createMultiResponse message s max current)
       = Ret (CommandResponse (commandResponse.mk message s max current true)))
  /\ (∀ s,
        parseResponse (createServerMessage s)
          = Ret (ServerMessage
                   (serverMessage.mk s
                      (testServerMessage ++ [" "%byte] ++ formatByte s)))).
Proof.
  split.
  - intros message s max current. unfold createMultiResponse.
    exact (parseResponse_frame commandType s
             (x00 :: max :: current :: message)).
  - intros s. unfold createServerMessage.
    exact (parseResponse_frame serverMessageType s
             (testServerMessage ++ [" "%byte] ++ formatByte s)).
Qed.

(** ** Reassembly entries *)

Lemma fold_expected (l : list nat) (acc : gset byte) :
  fold_left (fun m i => {[ byte_of_nat i ]} ∪ m) l acc
  = list_to_set (byte_of_nat <$> l) ∪ acc.
Proof.
  revert acc. induction l as [|i l IH]; intros acc; simpl.
  - now rewrite union_empty_l_L.
  - rewrite IH. apply set_eq. intros b.
    rewrite !elem_of_union, elem_of_singleton. tauto.
Qed.

Lemma NoDup_byte_of_nat (n : nat) :
  (n <= 256)%nat -> NoDup (byte_of_nat <$> seq 0 n).
Proof.
  intros Hn. apply NoDup_fmap_2_strong; [|apply NoDup_seq].
  intros i j Hi Hj. apply elem_of_seq in Hi, Hj.
  apply byte_of_nat_inj; lia.
Qed.

Lemma byte_to_nat_bound (b : byte) : (byte_to_nat b < 256)%nat.
Proof.
  unfold byte_to_nat. pose proof (Byte.to_N_bounded b). lia.
Qed.

Lemma byte_of_nat_to_nat (b : byte) : byte_of_nat (byte_to_nat b) = b.
Proof.
  unfold byte_of_nat, byte_to_nat.
  rewrite <- (byte_of_Z_to_Z b) at 2. f_equal. unfold byte_to_Z. lia.
Qed.

(** A new entry misses exactly the indices below its size. *)
Lemma newFragmentedResponse_expected (size b : byte) :
  b ∈ fragmentedResponse.expected (newFragmentedResponse size)
  <-> (byte_to_nat b < byte_to_nat size)%nat.
Proof.
  unfold newFragmentedResponse. cbn [fragmentedResponse.expected].
  rewrite expected_fold. split.
  - intros [H|(i & Hi & ->)]; [now apply not_elem_of_empty in H|].
    apply elem_of_seq in Hi. pose proof (byte_to_nat_bound size).
    rewrite byte_to_nat_of_nat by lia. lia.
  - intros H. right. exists (byte_to_nat b).
    split; [apply elem_of_seq; lia|]. symmetry. apply byte_of_nat_to_nat.
Qed.

Lemma newFragmentedResponse_size (size : byte) :
  base.size (fragmentedResponse.expected (newFragmentedResponse size))
  = byte_to_nat size.
Proof.
  unfold newFragmentedResponse. cbn [fragmentedResponse.expected].
  rewrite fold_expected, union_empty_r_L.
  pose proof (byte_to_nat_bound size).
  rewrite size_list_to_set by (apply NoDup_byte_of_nat; lia).
  now rewrite length_fmap, length_seq.
Qed.

Lemma addAll_Ret (crs : list commandResponse.t) (fm fm' : fragmentedResponse.t) :
  addAll fm crs = Ret fm' ->
  length (fragmentedResponse.parts fm') = length (fragmentedResponse.parts fm)
  /\ fragmentedResponse.expected fm'
     = fragmentedResponse.expected fm ∖ received crs
  /\ Forall (fun cr => (byte_to_nat (commandResponse.multiIndex cr)
                          < length (fragmentedResponse.parts fm))%nat) crs.
Proof.
  revert fm. induction crs as [|cr crs IH]; intros fm H; simpl in H.
  - injection H as <-. unfold received. simpl.
    rewrite difference_empty_L. auto.
  - destruct (fragmentedResponse.add fm cr) as [fm1| |] eqn:E;
      try discriminate H.
    cbn [mbind outcome_bind] in H.
    apply add_Ret in E as [Hlt ->].
    apply IH in H as (Hlen & Hexp & Hall).
    cbn [fragmentedResponse.parts fragmentedResponse.expected] in *.
    rewrite length_insert in Hlen, Hall.
    refine (conj Hlen (conj _ _)); [|constructor; assumption].
    rewrite Hexp. unfold received. rewrite fmap_cons. simpl.
    apply set_eq. intros b.
    rewrite !elem_of_difference, elem_of_union, elem_of_singleton. tauto.
Qed.

(** X7.  The invariant of a reassembly entry.  After any series of
    fragments that a new entry for [size] parts takes without panicking,
    the entry has [size] slots, its missing set is the indices below [size]
    less the indices received, so that 0 <= |missing| <= size, and it is
    completed exactly when every index below [size] has been received. *)
Theorem entry_invariant (size : byte) (crs : list commandResponse.t)
    (fm : fragmentedResponse.t) :
  addAll (newFragmentedResponse size) crs = Ret fm ->
  length (fragmentedResponse.parts fm) = byte_to_nat size
  /\ (∀ b, b ∈ fragmentedResponse.expected fm
           <-> (byte_to_nat b < byte_to_nat size)%nat /\ b ∉ received crs)
  /\ (base.size (fragmentedResponse.expected fm) <= byte_to_nat size)%nat
  /\ (fragmentedResponse.completed fm = true
      <-> ∀ b, (byte_to_nat b < byte_to_nat size)%nat -> b ∈ received crs).
Proof.
  intros H. apply addAll_Ret in H as (Hlen & Hexp & _).
  assert (Hchar : ∀ b, b ∈ fragmentedResponse.expected fm
            <-> (byte_to_nat b < byte_to_nat size)%nat /\ b ∉ received crs).
  { intros b. rewrite Hexp, elem_of_difference.
    now rewrite newFragmentedResponse_expected. }
  refine (conj _ (conj Hchar (conj _ _))).
  - rewrite Hlen. unfold newFragmentedResponse. apply length_replicate.
  - rewrite <- (newFragmentedResponse_size size). apply subseteq_size.
    rewrite Hexp. apply subseteq_difference_l. reflexivity.
  - rewrite completed_iff_none_missing. split.
    + intros He b Hb. destruct (decide (b ∈ received crs)) as [|Hn]; [assumption|].
      assert (Hin : b ∈ fragmentedResponse.expected fm) by now apply Hchar.
      rewrite He in Hin. now apply not_elem_of_empty in Hin.
    + intros Hall. apply set_eq. intros b. rewrite Hchar. split.
      * intros [Hb Hn]. destruct Hn. now apply Hall.
      * intros Hin. now apply not_elem_of_empty in Hin.
Qed.

(** A three-part entry that has taken part 2 twice and part 0 once. *)
Lemma entry_invariant_witness :
  length (fragmentedResponse.parts
            (fragmentedResponse.mk {[x01]} [secret; []; doSomething]))
    = byte_to_nat x03.
Proof.
  apply (entry_invariant x03
           [replyPart x00 [secret; []; secret] 2;
            replyPart x00 [secret; []; doSomething] 2;
            replyPart x00 [secret; []; doSomething] 0]).
  vm_compute. reflexivity.
Defined.

(** X8.  Fragments with different part indices commute: an entry that
    takes two such fragments ends up the same whichever comes first. *)
Theorem add_commutes (fm : fragmentedResponse.t) (cr1 cr2 : commandResponse.t) :
  commandResponse.multiIndex cr1 ≠ commandResponse.multiIndex cr2 ->
  addAll fm [cr1; cr2] = addAll fm [cr2; cr1].
Proof.
  intros Hne. simpl. unfold fragmentedResponse.add.
  destruct (decide (byte_to_nat (commandResponse.multiIndex cr1)
                      < length (fragmentedResponse.parts fm))%nat) as [H1|H1];
    destruct (decide (byte_to_nat (commandResponse.multiIndex cr2)
                        < length (fragmentedResponse.parts fm))%nat) as [H2|H2];
    cbn [mbind outcome_bind fragmentedResponse.parts fragmentedResponse.expected];
    rewrite ?length_insert;
    rewrite ?(decide_True (P := (_ < _)%nat)) by assumption;
    rewrite ?(decide_False (P := (_ < _)%nat)) by assumption;
    try reflexivity.
  cbn [mbind outcome_bind]. f_equal. f_equal.
  - apply set_eq. intros b. rewrite !elem_of_difference, !elem_of_singleton.
    tauto.
  - apply list_insert_insert_ne. intros Heq. apply Hne.
    rewrite <- (byte_of_nat_to_nat (commandResponse.multiIndex cr1)),
            <- (byte_of_nat_to_nat (commandResponse.multiIndex cr2)).
    now rewrite Heq.
Qed.

(** Parts 1 and 0 of a two-part reply in either order. *)
Lemma add_commutes_witness :
  addAll (newFragmentedResponse x02)
         [replyPart x00 [secret; doSomething] 1;
          replyPart x00 [secret; doSomething] 0]
  = addAll (newFragmentedResponse x02)
           [replyPart x00 [secret; doSomething] 0;
            replyPart x00 [secret; doSomething] 1].
Proof.
  apply add_commutes. vm_compute. discriminate.
Defined.

(** X9.  [handleCommandResponse] panics on exactly one kind of input: a
    multi-packet part under the expected sequence number whose part index
    is not below the number of slots of its entry (the entry in the map,
    or else a new one with as many slots as the part's size byte says).
    In particular the first part of a reply panics when its index is not
    below its size. *)
Theorem handleCommandResponse_panic_iff (c : Client) (r : commandResponse.t) :
  handleCommandResponse c r = Panic
  <-> commandResponse.seq r = Client_seq c
      /\ commandResponse.multi r = true
      /\ (length (fragmentedResponse.parts
                    (default (newFragmentedResponse (commandResponse.multiSize r))
                             (fragments c !! commandResponse.seq r)))
          <= byte_to_nat (commandResponse.multiIndex r))%nat.
Proof.
  unfold handleCommandResponse.
  destruct (decide (commandResponse.seq r ≠ Client_seq c)) as [Hs|Hs].
  { split; [discriminate|]. intros (H & _). now destruct Hs. }
  apply dec_stable in Hs.
  destruct (commandResponse.multi r); cbn [negb]; cbv iota.
  2:{ split; [discriminate|]. intros (_ & H & _). discriminate H. }
  set (fr := match fragments c !! commandResponse.seq r with
             | Some fr => fr
             | None => newFragmentedResponse (commandResponse.multiSize r)
             end).
  replace (default (newFragmentedResponse (commandResponse.multiSize r))
                   (fragments c !! commandResponse.seq r)) with fr
    by (unfold fr; now destruct (fragments c !! commandResponse.seq r)).
  unfold fragmentedResponse.add.
  destruct (decide (byte_to_nat (commandResponse.multiIndex r)
                      < length (fragmentedResponse.parts fr))%nat) as [Hlt|Hge].
  - cbn [mbind outcome_bind]. split.
    + destruct (fragmentedResponse.completed _); discriminate.
    + intros (_ & _ & H). lia.
  - cbn [mbind outcome_bind]. split; [|reflexivity].
    intros _. repeat split; [exact Hs|lia].
Qed.

(** Part 5 of a reply that says it has two parts. *)
Lemma handleCommandResponse_panic_iff_witness :
  handleCommandResponse connectedClient
    (commandResponse.mk secret x00 x02 x05 true) = Panic.
Proof.
  apply handleCommandResponse_panic_iff.
  refine (conj _ (conj _ _)).
  - reflexivity.
  - reflexivity.
  - vm_compute. lia.
Defined.

(** X10.  [handleCommandResponse] touches nothing but the counter and the
    entry of the response's own sequence number: the connection, the
    configuration, the last-send time, the done flag, the broadcast queue
    and the entries of all other sequence numbers are as before, and a
    single-packet response leaves the whole fragment map as it was. *)
Theorem handleCommandResponse_frame (c c' : Client) (r : commandResponse.t)
    (out : option (list byte)) :
  handleCommandResponse c r = Ret (c', out) ->
  conn c' = conn c /\ timeout c' = timeout c /\ keepAlive c' = keepAlive c
  /\ msgBufSize c' = msgBufSize c /\ lastSend c' = lastSend c
  /\ done c' = done c /\ msgs c' = msgs c
  /\ (∀ s, s ≠ commandResponse.seq r -> fragments c' !! s = fragments c !! s)
  /\ (commandResponse.multi r = false -> fragments c' = fragments c).
Proof.
  unfold handleCommandResponse. intros H.
  destruct (decide (commandResponse.seq r ≠ Client_seq c)) as [Hs|Hs].
  { injection H as <- <-. repeat split. }
  destruct (commandResponse.multi r); cbn [negb] in H; cbv iota in H.
  2:{ injection H as <- <-. repeat split. }
  destruct (fragmentedResponse.add _ r) as [fr| |]; try discriminate H.
  cbn [mbind outcome_bind] in H.
  destruct (fragmentedResponse.completed fr); injection H as <- <-;
    repeat split; try discriminate;
    intros s Hne; cbn [fragments set_fragments incr set_ctr];
    now rewrite lookup_insert_ne.
Qed.

(** Part 0 of a two-part reply reaching a client that holds an entry for
    another sequence number. *)
Lemma handleCommandResponse_frame_witness :
  fragments (set_fragments
               {[ x00 := fragmentedResponse.mk {[x01]} [secret; []];
                  x09 := newFragmentedResponse x03 ]}
               connectedClient) !! x09
  = fragments (set_fragments {[ x09 := newFragmentedResponse x03 ]}
                 connectedClient) !! x09.
Proof.
  assert (H : handleCommandResponse
                (set_fragments {[ x09 := newFragmentedResponse x03 ]}
                   connectedClient)
                (replyPart x00 [secret; doSomething] 0)
              = Ret (set_fragments
                       {[ x00 := fragmentedResponse.mk {[x01]} [secret; []];
                          x09 := newFragmentedResponse x03 ]}
                       connectedClient, None))
    by (vm_compute; reflexivity).
  destruct (handleCommandResponse_frame _ _ _ _ H)
    as (_ & _ & _ & _ & _ & _ & _ & Hf & _).
  apply Hf. discriminate.
Defined.

(** ** Server messages *)

(** X11.  [handleServerMessage] on a connected client whose broadcast
    queue is open and within its capacity: the queue stays within its
    capacity; the text is appended when there is room; when the queue is
    full the new text is dropped and the queued ones stay; and in both
    cases, unless the write fails, exactly one datagram is written: the
    nine-byte acknowledgement that echoes the message's sequence number. *)
Theorem handleServerMessage_queue (c : Client) (buffered : list (list byte))
    (r : serverMessage.t) (io : option error) (ch : chan) (k : connState) :
  msgs c = Some ch ->
  closed ch = false ->
  conn c = Some k ->
  Z.of_nat (length buffered) <= cap ch ->
  ∃ buffered' wire,
    handleServerMessage c buffered r io = Ret (buffered', wire)
    /\ Z.of_nat (length buffered') <= cap ch
    /\ (Z.of_nat (length buffered) < cap ch ->
        buffered' = buffered ++ [serverMessage.msg r])
    /\ (Z.of_nat (length buffered) = cap ch -> buffered' = buffered)
    /\ (io = None ->
        ∃ raw, wire = [raw] /\ length raw = 9%nat
               /\ parseResponse raw
                  = Ret (ServerMessage
                           (serverMessage.mk (serverMessage.seq r) [])))
    /\ (io ≠ None -> wire = []).
Proof.
  intros Hm Hc Hk Hlen. unfold handleServerMessage, trySend, write.
  rewrite Hm, Hc, Hk.
  change (packet.bytes (newServerMessageAcknowledgePacket (serverMessage.seq r)))
    with (Ret (packet.header [xff; serverMessageType; serverMessage.seq r]
               ++ [xff; serverMessageType; serverMessage.seq r])).
  cbn [mbind outcome_bind].
  assert (Hack : io = None ->
            ∃ raw, (match io with
                    | Some _ => []
                    | None => [packet.header [xff; serverMessageType; serverMessage.seq r]
                               ++ [xff; serverMessageType; serverMessage.seq r]]
                    end) = [raw]
                   /\ length raw = 9%nat
                   /\ parseResponse raw
                      = Ret (ServerMessage
                               (serverMessage.mk (serverMessage.seq r) []))).
  { intros ->. eexists. split; [reflexivity|]. split; [reflexivity|].
    exact (parseResponse_frame serverMessageType (serverMessage.seq r) []). }
  destruct (decide (Z.of_nat (length buffered) < cap ch)) as [Hlt|Hge];
    cbn [mbind outcome_bind].
  - exists (buffered ++ [serverMessage.msg r]),
      (match io with
       | Some _ => []
       | None => [packet.header [xff; serverMessageType; serverMessage.seq r]
                  ++ [xff; serverMessageType; serverMessage.seq r]]
       end).
    split; [now destruct io|].
    split; [rewrite length_app; simpl; lia|].
    split; [reflexivity|]. split; [lia|]. split; [exact Hack|].
    now destruct io.
  - exists buffered,
      (match io with
       | Some _ => []
       | None => [packet.header [xff; serverMessageType; serverMessage.seq r]
                  ++ [xff; serverMessageType; serverMessage.seq r]]
       end).
    split; [now destruct io|].
    split; [exact Hlen|]. split; [lia|]. split; [reflexivity|].
    split; [exact Hack|]. now destruct io.
Qed.

(** A server message reaching a client whose queue of capacity 100 holds
    one text. *)
Lemma handleServerMessage_queue_witness :
  ∃ raw,
    handleServerMessage connectedClient [secret]
      (serverMessage.mk x07 doSomething) None
    = Ret ([secret; doSomething], [raw])
    /\ parseResponse raw = Ret (ServerMessage (serverMessage.mk x07 [])).
Proof.
  destruct (handleServerMessage_queue connectedClient [secret]
              (serverMessage.mk x07 doSomething) None (mkChan 100 false)
              ConnOpen)
    as (buffered' & wire & H & _ & Hroom & _ & Hack & _).
  - reflexivity.
  - reflexivity.
  - reflexivity.
  - simpl. lia.
  - destruct (Hack eq_refl) as (raw & -> & _ & Hraw).
    rewrite Hroom in H by (simpl; lia).
    exists raw. split; [exact H|exact Hraw].
Defined.

(** ** The receiver *)





Lemma handleCommandResponse_keeps (c c' : Client) (r : commandResponse.t)
    (out : option (list byte)) :
  handleCommandResponse c r = Ret (c', out) ->
  conn c' = conn c /\ done c' = done c /\ msgs c' = msgs c.
Proof.
  unfold handleCommandResponse. intros H.
  destruct (decide (commandResponse.seq r ≠ Client_seq c)).
  { injection H as <- <-. auto. }
  destruct (commandResponse.multi r); cbn [negb] in H; cbv iota in H.
  2:{ injection H as <- <-. auto. }
  destruct (fragmentedResponse.add _ r) as [fr| |]; try discriminate H.
  cbn [mbind outcome_bind] in H.
  destruct (fragmentedResponse.completed fr); injection H as <- <-; auto.
Qed.

Lemma run_keeps (trace : list commandResponse.t) (c c' : Client)
    (outs : list (list byte)) :
  run c (Receive <$> trace) = Ret (c', outs) ->
  conn c' = conn c /\ done c' = done c /\ msgs c' = msgs c.
Proof.
  revert c outs. induction trace as [|r trace IH]; intros c outs H.
  - injection H as <- <-. auto.
  - rewrite fmap_cons in H. cbn [run step] in H.
    destruct (handleCommandResponse c r) as [[c1 o]| |] eqn:E;
      try discriminate H.
    cbn [mbind outcome_bind] in H.
    destruct (run c1 (Receive <$> trace)) as [[c2 os]| |] eqn:E2;
      try discriminate H.
    cbn [mbind outcome_bind] in H. injection H as <- <-.
    apply IH in E2 as (-> & -> & ->).
    now apply handleCommandResponse_keeps in E.
Qed.

(** A running receiver that reads command responses, with a goroutine
    waiting for every reply it sends, does what [run] does with them and
    leaves the broadcast queue alone. *)
Lemma receiver_commands (reads : list (readResult * option error * bool))
    (rs : list commandResponse.t) :
  Forall2 (fun t r => ∃ datagram,
             t.1.1 = ReadDatagram datagram
             /\ t.2 = true
             /\ parseResponse (take bufferSize datagram)
                = Ret (CommandResponse r)) reads rs ->
  ∀ (c : Client) (buffered : list (list byte)) (k : connState),
    conn c = Some k ->
    done c = Some false ->
    receiver c buffered reads =
      match run c (Receive <$> rs) with
      | Ret (c', outs) => Ret (c', buffered, map OnCmds outs, AtLoop)
      | Fail e => Fail e
      | Panic => Panic
      end.
Proof.
  induction 1 as [|[[rd io] taken] r reads rs (datagram & Hrd & Ht & Hparse) _ IH];
    intros c buffered k Hk Hd.
  - reflexivity.
  - simpl in Hrd, Ht. subst rd taken. rewrite fmap_cons. cbn [receiver run step].
    rewrite Hd. unfold receiverStep, read. rewrite Hk, Hparse.
    cbn [mbind outcome_bind route untaken].
    destruct (handleCommandResponse c r) as [[c1 o]| |] eqn:E;
      cbn [mbind outcome_bind]; try reflexivity.
    apply handleCommandResponse_keeps in E as (Hk1 & Hd1 & _).
    rewrite (IH c1 buffered k) by congruence.
    destruct (run c1 (Receive <$> rs)) as [[c2 os]| |];
      cbn [mbind outcome_bind]; try reflexivity.
    now destruct o.
Qed.

Lemma createMultiResponse_length (message : list byte) (s max current : byte) :
  length (createMultiResponse message s max current)
  = (12 + length message)%nat.
Proof. reflexivity. Qed.

(** The datagrams of a reply whose parts fit the read buffer decode to
    its parts. *)
Lemma replyDatagrams_decode (s : byte) (bodies : list (list byte))
    (order : list nat) :
  Forall (fun body => (12 + length body <= bufferSize)%nat) bodies ->
  Forall2 (fun t r => ∃ datagram,
             t.1.1 = ReadDatagram datagram
             /\ t.2 = true
             /\ parseResponse (take bufferSize datagram)
                = Ret (CommandResponse r))
          (replyDatagrams s bodies order true) (replyPart s bodies <$> order).
Proof.
  intros Hfit.
  unfold replyDatagrams. apply Forall2_fmap, Forall_Forall2_diag.
  apply Forall_forall. intros i Hi. eexists.
  split; [reflexivity|]. split; [reflexivity|].
  assert (Hbody : (12 + length (default [] (bodies !! i)) <= bufferSize)%nat).
  { destruct (bodies !! i) as [body|] eqn:Hb; [|simpl; unfold bufferSize; lia].
    apply (proj1 (Forall_forall _ _) Hfit), list_elem_of_lookup. eauto. }
  rewrite take_ge by (rewrite createMultiResponse_length; exact Hbody).
  exact (parseResponse_frame commandType s
           (x00 :: byte_of_nat (length bodies) :: byte_of_nat i
                :: default [] (bodies !! i))).
Qed.

(** X13.  From datagrams to the reply channel.  A running receiver with
    no entry for the expected sequence number reads the datagrams of a
    reply of [k] parts (1 <= k <= 255), each built as the mock server
    builds it and within the read buffer, in any order, while a goroutine
    waits for the reply: it sends exactly one reply, the texts joined in
    index order, advances the counter by one and leaves the broadcast
    queue alone. *)
Theorem receiver_reassembles (c : Client) (buffered : list (list byte))
    (bodies : list (list byte)) (order : list nat) (k : connState) :
  conn c = Some k ->
  done c = Some false ->
  fragments c !! Client_seq c = None ->
  (0 < length bodies < 256)%nat ->
  Forall (fun body => (12 + length body <= bufferSize)%nat) bodies ->
  order ≡ₚ seq 0 (length bodies) ->
  ∃ c', receiver c buffered (replyDatagrams (Client_seq c) bodies order true)
          = Ret (c', buffered, [OnCmds (concat bodies)], AtLoop)
        /\ ctr c' = (ctr c + 1) mod 2 ^ 64.
Proof.
  intros Hk Hd Hnone Hlen Hfit Hperm.
  destruct (reassembly_without_stale_entry c bodies order Hnone Hlen Hperm)
    as (c' & Hrun & Hctr).
  exists c'. split; [|exact Hctr].
  pose proof (replyDatagrams_decode (Client_seq c) bodies order Hfit) as Hreads.
  rewrite (receiver_commands _ _ Hreads c buffered k Hk Hd).
  unfold arrival in Hrun. rewrite <- list_fmap_compose.
  change (Receive ∘ replyPart (Client_seq c) bodies)
    with (fun i => Receive (replyPart (Client_seq c) bodies i)).
  rewrite Hrun. reflexivity.
Qed.

(** A reply of three parts read in a shuffled order. *)
Lemma receiver_reassembles_witness :
  ∃ c', receiver connectedClient []
          (replyDatagrams (Client_seq connectedClient)
             [secret; doSomething; secret] [2; 0; 1]%nat true)
        = Ret (c', [], [OnCmds (concat [secret; doSomething; secret])], AtLoop)
        /\ ctr c' = (ctr connectedClient + 1) mod 2 ^ 64.
Proof.
  apply (receiver_reassembles connectedClient [] [secret; doSomething; secret]
           [2; 0; 1]%nat ConnOpen).
  - reflexivity.
  - reflexivity.
  - reflexivity.
  - simpl. lia.
  - repeat constructor; simpl; unfold bufferSize; lia.
  - apply (Permutation_cons_app [0; 1]%nat []). reflexivity.
Defined.

(** ** Exec *)

Lemma send_keeps (c : Client) (cmd : list byte) (t : Z) (io : option error)
    (ev : sendEvent) :
  conn (send c cmd t io ev).1 = conn c
  /\ ctr (send c cmd t io ev).1 = ctr c
  /\ fragments (send c cmd t io ev).1 = fragments c
  /\ done (send c cmd t io ev).1 = done c
  /\ msgs (send c cmd t io ev).1 = msgs c
  /\ keepAlive (send c cmd t io ev).1 = keepAlive c.
Proof.
  unfold send. destruct (write c _ io); repeat split.
Qed.

(** The result of a send depends on the client through its connection
    only. *)
Lemma send_result (c c' : Client) (cmd : list byte) (t : Z) (io : option error)
    (ev : sendEvent) :
  conn c' = conn c ->
  (send c' cmd t io ev).2 = (send c cmd t io ev).2.
Proof.
  intros Hk. unfold send, write.
  change (packet.bytes (newCommandPacket cmd (Client_seq c')))
    with (Ret (packet.header (xff :: commandType :: Client_seq c' :: cmd)
               ++ xff :: commandType :: Client_seq c' :: cmd)).
  change (packet.bytes (newCommandPacket cmd (Client_seq c)))
    with (Ret (packet.header (xff :: commandType :: Client_seq c :: cmd)
               ++ xff :: commandType :: Client_seq c :: cmd)).
  cbn [mbind outcome_bind]. rewrite Hk.
  destruct (conn c); [|reflexivity]. destruct io; reflexivity.
Qed.

Lemma retry_first_result (cmd : list byte) (until : Z) (turns : nat -> attempt)
    (m : nat) :
  ∀ (n : nat) (c0 c : Client) (fuel : nat),
    conn c = conn c0 -> ctr c = ctr c0 -> fragments c = fragments c0 ->
    (∀ j, (n <= j < n + m)%nat ->
          clock (turns j) < until
          /\ (send c0 cmd (stamp (turns j)) (io (turns j)) (ev (turns j))).2
             = Fail ErrTimeout) ->
    (until <= clock (turns (n + m)%nat)
     \/ (send c0 cmd (stamp (turns (n + m)%nat)) (io (turns (n + m)%nat))
              (ev (turns (n + m)%nat))).2 ≠ Fail ErrTimeout) ->
    (m < fuel)%nat ->
    ∃ c', retry fuel c cmd until turns n
          = Some (c', if decide (clock (turns (n + m)%nat) < until)
                      then (send c0 cmd (stamp (turns (n + m)%nat))
                                 (io (turns (n + m)%nat))
                                 (ev (turns (n + m)%nat))).2
                      else Fail ErrTimeout)
          /\ conn c' = conn c0 /\ ctr c' = ctr c0
          /\ fragments c' = fragments c0.
Proof.
  induction m as [|m IH]; intros n c0 c fuel Hk Hc Hf Hbefore Hbreak Hfuel;
    (destruct fuel as [|fuel]; [lia|]); cbn [retry].
  - rewrite Nat.add_0_r in *.
    destruct (decide (clock (turns n) < until)) as [Hlt|Hge];
      [|exists c; auto].
    destruct Hbreak as [Hb|Hb]; [lia|].
    pose proof (send_result c0 c cmd (stamp (turns n)) (io (turns n))
                  (ev (turns n)) Hk) as Hres.
    pose proof (send_keeps c cmd (stamp (turns n)) (io (turns n))
                  (ev (turns n))) as (Hk' & Hc' & Hf' & _).
    destruct (send c cmd (stamp (turns n)) (io (turns n)) (ev (turns n)))
      as [c1 r1]. simpl in Hres, Hk', Hc', Hf'. rewrite <- Hres.
    assert (Hc1 : conn c1 = conn c0 /\ ctr c1 = ctr c0
                  /\ fragments c1 = fragments c0)
      by (repeat split; congruence).
    destruct r1 as [resp|e|]; [exists c1; auto| |exists c1; auto].
    destruct (decide (e = ErrTimeout)) as [->|Hne]; [|exists c1; auto].
    destruct Hb. now rewrite <- Hres.
  - destruct (Hbefore n ltac:(lia)) as [Hlt Hto].
    rewrite decide_True by exact Hlt.
    pose proof (send_result c0 c cmd (stamp (turns n)) (io (turns n))
                  (ev (turns n)) Hk) as Hres.
    pose proof (send_keeps c cmd (stamp (turns n)) (io (turns n))
                  (ev (turns n))) as (Hk' & Hc' & Hf' & _).
    destruct (send c cmd (stamp (turns n)) (io (turns n)) (ev (turns n)))
      as [c1 r1]. simpl in Hres, Hk', Hc', Hf'.
    rewrite Hto in Hres. subst r1. rewrite decide_True by reflexivity.
    replace (n + S m)%nat with (S n + m)%nat in * by lia.
    apply (IH (S n) c0 c1 fuel); try congruence; try lia.
    intros j Hj. apply Hbefore. lia.
Qed.

(** X14.  [Exec] returns the result of its first send that does not time
    out, if that send starts before the 45 s deadline, and Timeout once a
    turn of its loop starts at or after the deadline: when every send
    before turn [n] starts in time and returns Timeout, and turn [n] either
    starts too late or its send returns something else, [Exec] returns (on
    [n + 1] turns of fuel or more) the result of that send if turn [n]
    starts in time and Timeout otherwise.  [Exec] itself never changes the
    counter or the fragment map. *)
Theorem Exec_first_result (c : Client) (cmd : list byte) (start : Z)
    (turns : nat -> attempt) (n fuel : nat) :
  (∀ j, (j < n)%nat ->
        clock (turns j) < start + clientTimeout
        /\ (send c cmd (stamp (turns j)) (io (turns j)) (ev (turns j))).2
           = Fail ErrTimeout) ->
  (start + clientTimeout <= clock (turns n)
   \/ (send c cmd (stamp (turns n)) (io (turns n)) (ev (turns n))).2
      ≠ Fail ErrTimeout) ->
  (n < fuel)%nat ->
  ∃ c', Exec fuel c cmd start turns
        = Some (c', if decide (clock (turns n) < start + clientTimeout)
                    then (send c cmd (stamp (turns n)) (io (turns n))
                               (ev (turns n))).2
                    else Fail ErrTimeout)
        /\ conn c' = conn c /\ ctr c' = ctr c /\ fragments c' = fragments c.
Proof.
  intros Hbefore Hbreak Hfuel. unfold Exec.
  apply (retry_first_result cmd (start + clientTimeout) turns n 0 c c fuel);
    try reflexivity; try assumption.
  intros j Hj. apply Hbefore. lia.
Qed.

(** A command answered at the third send, twenty seconds in. *)
Lemma Exec_first_result_witness :
  ∃ c', Exec 3 connectedClient doSomething 0 (tenSecondTurns 2)
        = Some (c', Ret secret)
        /\ conn c' = conn connectedClient /\ ctr c' = ctr connectedClient
        /\ fragments c' = fragments connectedClient.
Proof.
  apply (Exec_first_result connectedClient doSomething 0 (tenSecondTurns 2) 2 3).
  - intros j Hj. destruct j as [|[|j]]; [| |lia]; vm_compute; auto.
  - right. vm_compute. discriminate.
  - lia.
Defined.

(** X15.  [Exec] returns: if the clock reaches the deadline at some turn
    of the loop, enough fuel gives a result, whatever the sends do. *)
Theorem Exec_terminates (c : Client) (cmd : list byte) (start : Z)
    (turns : nat -> attempt) (m : nat) :
  start + clientTimeout <= clock (turns m) ->
  ∃ res, Exec (S m) c cmd start turns = Some res.
Proof.
  unfold Exec. intros Hm.
  assert (H : ∀ k n c, (n + k = m)%nat ->
            ∃ res, retry (S k) c cmd (start + clientTimeout) turns n = Some res).
  { induction k as [|k IH]; intros n c1 Hn; cbn [retry].
    - rewrite Nat.add_0_r in Hn. subst n.
      rewrite decide_False by lia. eauto.
    - destruct (decide (clock (turns n) < start + clientTimeout));
        [|eauto].
      destruct (send c1 cmd _ _ _) as [c2 [resp|e|]]; eauto.
      destruct (decide (e = ErrTimeout)); [|eauto].
      apply IH. lia. }
  apply H. lia.
Qed.

(** Every send times out; the fifth turn starts at the deadline. *)
Lemma Exec_terminates_witness :
  ∃ res, Exec 6 connectedClient doSomething 5 (tenSecondTurns 9) = Some res.
Proof.
  apply (Exec_terminates connectedClient doSomething 5 (tenSecondTurns 9) 5).
  vm_compute. discriminate.
Defined.

(** ** Opening and closing *)

(** X16.  [NewClient] returns a client exactly when every option applies,
    the runtime serves the broadcast queue, the address can be dialled,
    the login packet is written and the server's login result is success;
    the client returned is the one the options left, with its socket
    open, its done flag clear, an empty fragment map and an open broadcast
    queue of the configured capacity.  A nil option after options that
    apply gives NilOption whatever the network would do. *)
Theorem NewClient_opens_iff (pwd : list byte) (options : list (option Option))
    (net : network) :
  (∀ c, NewClient pwd options net = Returns (Ret c)
        <-> ∃ c1, applyOptions options defaultClient = Ret c1
                  /\ 0 <= msgBufSize c1 <= chanLimit net
                  /\ dial net = None
                  /\ loginWrite net = None
                  /\ loginSelect net = ConnectLogin true
                  /\ c = set_conn (Some ConnOpen) (allocate c1))
  /\ (∀ c, NewClient pwd options net = Returns (Ret c) ->
           conn c = Some ConnOpen /\ done c = Some false
           /\ fragments c = ∅
           /\ msgs c = Some (mkChan (msgBufSize c) false))
  /\ (∀ before after c1,
        options = before ++ None :: after ->
        applyOptions before defaultClient = Ret c1 ->
        NewClient pwd options net = Returns (Fail ErrNilOption)).
Proof.
  assert (Hiff : ∀ c, NewClient pwd options net = Returns (Ret c)
        <-> ∃ c1, applyOptions options defaultClient = Ret c1
                  /\ 0 <= msgBufSize c1 <= chanLimit net
                  /\ dial net = None
                  /\ loginWrite net = None
                  /\ loginSelect net = ConnectLogin true
                  /\ c = set_conn (Some ConnOpen) (allocate c1)).
  { intros c. split.
    - intros H. apply NewClient_Ret in H as (c1 & Ho & Hr & Hc).
      exists c1. split; [exact Ho|]. split; [exact Hr|].
      unfold connect, write in Hc.
      destruct (dial net); [discriminate Hc|].
      change (packet.bytes (newLoginPacket pwd))
        with (Ret (packet.header (xff :: loginType :: pwd)
                   ++ xff :: loginType :: pwd)) in Hc.
      cbn [mbind outcome_bind conn set_conn] in Hc.
      destruct (loginWrite net); [discriminate Hc|].
      destruct (loginSelect net) as [| |[|]]; try discriminate Hc.
      injection Hc as <-. auto.
    - intros (c1 & Ho & Hr & Hd & Hw & Hl & ->).
      now apply NewClient_opens. }
  refine (conj Hiff (conj _ _)).
  - intros c H. apply Hiff in H as (c1 & _ & _ & _ & _ & _ & ->).
    repeat split.
  - intros before after c1 -> Hb. unfold NewClient.
    rewrite applyOptions_app, Hb. reflexivity.
Qed.

(** The options of the keep-alive test against a friendly network, and a
    nil option after a timeout. *)
Lemma NewClient_opens_iff_witness :
  (conn (set_conn (Some ConnOpen)
           (allocate (set_msgBufSize 10 (set_timeout second defaultClient))))
   = Some ConnOpen
   /\ done (set_conn (Some ConnOpen)
              (allocate (set_msgBufSize 10 (set_timeout second defaultClient))))
      = Some false
   /\ fragments (set_conn (Some ConnOpen)
                   (allocate (set_msgBufSize 10 (set_timeout second defaultClient))))
      = ∅
   /\ msgs (set_conn (Some ConnOpen)
              (allocate (set_msgBufSize 10 (set_timeout second defaultClient))))
      = Some (mkChan 10 false))
  /\ NewClient secret [Some (Timeout second); None; Some (MessageBuffer 0)]
       unreachableNetwork = Returns (Fail ErrNilOption).
Proof.
  split.
  - apply (proj1 (proj2 (NewClient_opens_iff secret
             [Some (Timeout second); Some (MessageBuffer 10)] friendlyNetwork))).
    reflexivity.
  - apply (proj2 (proj2 (NewClient_opens_iff secret
             [Some (Timeout second); None; Some (MessageBuffer 0)]
             unreachableNetwork))
             [Some (Timeout second)] [Some (MessageBuffer 0)]
             (set_timeout second defaultClient)); reflexivity.
Defined.

(** X17.  Closing a client that [NewClient] returned.  While the receiver
    is blocked in a send that nobody takes, [Close] does not return.
    Otherwise it returns without error or panic and leaves the client
    done with its socket and its broadcast queue closed, the counter and
    the fragment map as they were; a further [Close] returns at once and
    changes nothing, and a receiver that finds the client closed returns
    without reading, whatever arrives. *)
Theorem opened_client_closes (pwd : list byte) (options : list (option Option))
    (net : network) (c : Client) :
  NewClient pwd options net = Returns (Ret c) ->
  Close c true = Blocks
  /\ ∃ c', Close c false = Returns (Ret (c', None))
           /\ done c' = Some true
           /\ conn c' = Some ConnClosed
           /\ msgs c' = Some (mkChan (msgBufSize c) true)
           /\ ctr c' = ctr c /\ fragments c' = fragments c
           /\ (∀ stuck, Close c' stuck = Returns (Ret (c', None)))
           /\ ∀ buffered t reads,
                receiver c' buffered (t :: reads)
                = Ret (c', buffered, [], Returned).
Proof.
  intros H. apply NewClient_Ret in H as (c1 & _ & _ & Hc).
  unfold connect, write in Hc.
  destruct (dial net); [discriminate Hc|].
  change (packet.bytes (newLoginPacket pwd))
    with (Ret (packet.header (xff :: loginType :: pwd)
               ++ xff :: loginType :: pwd)) in Hc.
  cbn [mbind outcome_bind conn set_conn] in Hc.
  destruct (loginWrite net); [discriminate Hc|].
  destruct (loginSelect net) as [| |[|]]; try discriminate Hc.
  injection Hc as <-.
  split; [reflexivity|].
  eexists. split; [reflexivity|]. repeat split.
  intros buffered [[rd io] taken] reads. reflexivity.
Qed.

(** A client opened with the default options on a friendly network. *)
Lemma opened_client_closes_witness :
  Close connectedClient true = Blocks
  /\ ∃ c', Close connectedClient false = Returns (Ret (c', None))
           /\ done c' = Some true
           /\ conn c' = Some ConnClosed
           /\ msgs c' = Some (mkChan (msgBufSize connectedClient) true)
           /\ ctr c' = ctr connectedClient
           /\ fragments c' = fragments connectedClient
           /\ (∀ stuck, Close c' stuck = Returns (Ret (c', None)))
           /\ ∀ buffered t reads,
                receiver c' buffered (t :: reads)
                = Ret (c', buffered, [], Returned).
Proof.
  apply (opened_client_closes secret [] friendlyNetwork). reflexivity.
Defined.

(** X18.  [Close] in general.  On a client that is done it returns at
    once and changes nothing, so a [Close] after one that returned
    completes without error or panic.  On a client that is not done and
    whose socket is dialled it does not return while the receiver is
    blocked; otherwise it marks the client done, closes the broadcast
    queue and the socket and returns the result of closing the socket.
    When [connect] fails on a dialled socket, [NewClient] returns the
    error of [connect] once that [Close] has returned, and blocks with
    it. *)
Theorem Close_twice :
  (∀ c stuck, done c = Some true -> Close c stuck = Returns (Ret (c, None)))
  /\ (∀ c c1 e stuck stuck',
        Close c stuck = Returns (Ret (c1, e)) ->
        Close c1 stuck' = Returns (Ret (c1, None)))
  /\ (∀ c, done c = Some false -> conn c ≠ None -> Close c true = Blocks)
  /\ (∀ c ch k,
        done c = Some false ->
        msgs c = Some ch ->
        closed ch = false ->
        conn c = Some k ->
        Close c false
        = Returns (Ret (set_conn (Some ConnClosed)
                          (set_msgs (Some (mkChan (cap ch) true))
                             (set_done (Some true) c)),
                        (conn_Close k).2)))
  /\ (∀ pwd options net c1 c2 e,
        applyOptions options defaultClient = Ret c1 ->
        0 <= msgBufSize c1 <= chanLimit net ->
        dial net = None ->
        connect (allocate c1) pwd net = (c2, Fail e) ->
        NewClient pwd options net
        = if receiverStuck net then Blocks else Returns (Fail e)).
Proof.
  assert (Hopen : ∀ c ch k,
        done c = Some false -> msgs c = Some ch -> closed ch = false ->
        conn c = Some k ->
        Close c false
        = Returns (Ret (set_conn (Some ConnClosed)
                          (set_msgs (Some (mkChan (cap ch) true))
                             (set_done (Some true) c)),
                        (conn_Close k).2))).
  { intros c ch k Hd Hm Hc Hk. unfold Close. rewrite Hd. simpl.
    rewrite Hm. simpl. rewrite Hc. simpl. rewrite Hk. now destruct k. }
  assert (Hstuck : ∀ c, done c = Some false -> conn c ≠ None ->
                        Close c true = Blocks).
  { intros c Hd Hk. unfold Close. rewrite Hd. simpl.
    now rewrite bool_decide_eq_true_2. }
  refine (conj Close_done (conj _ (conj Hstuck (conj Hopen _)))).
  - intros c c1 e stuck stuck' H. apply Close_done. unfold Close in H.
    destruct (done c) as [[|]|] eqn:Hd; try discriminate H.
    + simpl in H. injection H as <- <-. exact Hd.
    + simpl in H. destruct (stuck && _); [discriminate H|].
      destruct (close_chan (msgs c)) as [ch| |]; try discriminate H.
      simpl in H. destruct (conn c) as [k|]; [|discriminate H].
      destruct (conn_Close k) as [k' err]. injection H as <- <-. reflexivity.
  - intros pwd options net c1 c2 e Ho Hr Hd Hc. unfold NewClient.
    rewrite Ho. rewrite decide_True by exact Hr. rewrite Hc.
    unfold connect in Hc. rewrite Hd in Hc.
    assert (Hc2 : c2 = set_conn (Some ConnOpen) (allocate c1)).
    { destruct (write _ _ _); [|now injection Hc|discriminate Hc].
      destruct (loginSelect net) as [| |[|]]; try discriminate Hc;
        now injection Hc. }
    destruct (receiverStuck net).
    + rewrite (Hstuck c2); subst c2; [reflexivity..|discriminate].
    + rewrite (Hopen c2 (mkChan (msgBufSize c1) false) ConnOpen);
        subst c2; reflexivity.
Qed.

(** Closing a connected client twice, as the client test does; a server
    that rejects the password; and a login result that arrives after the
    timer of [connect]. *)
Lemma Close_twice_witness :
  Close (set_conn (Some ConnClosed)
           (set_msgs (Some (mkChan defaultMessageBufferSize true))
              (set_done (Some true) connectedClient))) false
    = Returns (Ret (set_conn (Some ConnClosed)
                      (set_msgs (Some (mkChan defaultMessageBufferSize true))
                         (set_done (Some true) connectedClient)), None))
  /\ NewClient secret [] rejectingNetwork = Returns (Fail ErrLoginFailed)
  /\ NewClient secret [] lateNetwork = Blocks.
Proof.
  refine (conj _ (conj _ _)).
  - apply (proj1 (proj2 Close_twice) connectedClient _ None false false).
    reflexivity.
  - apply (proj2 (proj2 (proj2 (proj2 Close_twice))) secret []
             rejectingNetwork defaultClient connectedClient).
    + reflexivity.
    + vm_compute. split; discriminate.
    + reflexivity.
    + reflexivity.
  - apply (proj2 (proj2 (proj2 (proj2 Close_twice))) secret []
             lateNetwork defaultClient connectedClient ErrTimeout).
    + reflexivity.
    + vm_compute. split; discriminate.
    + reflexivity.
    + reflexivity.
Defined.

(** ** The keep-alive *)



(** ** The mock server and the client, end to end *)

Lemma header_layout (payload : list byte) :
  ∃ f0 f1 f2 f3, packet.header payload = [x42; x45; f0; f1; f2; f3].
Proof. repeat eexists. Qed.




Lemma sendPacket_command (msg : list byte) (s : byte) :
  server.sendPacket (packet.mk msg commandType s) None
  = ([packet.header (xff :: commandType :: s :: msg)
      ++ xff :: commandType :: s :: msg], Ret tt).
Proof. reflexivity. Qed.

Lemma write_command (c : Client) (cmd : list byte) (k : connState) :
  conn c = Some k ->
  write c (newCommandPacket cmd (Client_seq c)) None
  = Ret (packet.header (xff :: commandType :: Client_seq c :: cmd)
         ++ xff :: commandType :: Client_seq c :: cmd).
Proof. intros Hk. unfold write. rewrite Hk. reflexivity. Qed.

Lemma Client_seq_incr (c : Client) : Client_seq (incr c) ≠ Client_seq c.
Proof.
  unfold Client_seq, incr. cbn [ctr set_ctr]. intros H.
  apply (f_equal byte_to_Z) in H. rewrite !byte_to_Z_of_Z in H.
  rewrite Z.mod_mod_divide in H by (exists (2 ^ 56); reflexivity).
  rewrite Z.add_mod in H by lia.
  pose proof (Z.mod_pos_bound (ctr c) 256 ltac:(lia)) as Hb.
  change (1 mod 256) with 1 in H.
  destruct (decide (ctr c mod 256 = 255)) as [E|E].
  - rewrite E in H. discriminate H.
  - rewrite Z.mod_small in H by lia. lia.
Qed.


Lemma take_frame (payload : list byte) :
  (6 + length payload <= bufferSize)%nat ->
  take bufferSize (packet.header payload ++ payload)
  = packet.header payload ++ payload.
Proof.
  intros H. apply take_ge. rewrite length_app.
  change (length (packet.header payload)) with 6%nat. exact H.
Qed.

(** A running receiver reading one datagram that frames a payload within
    the read buffer, with a goroutine waiting for what it sends. *)
Lemma receiver_frame (c : Client) (buffered : list (list byte))
    (k : connState) (ty b0 : byte) (body : list byte) (r : response)
    (reads : list (readResult * option error * bool)) (io : option error) :
  conn c = Some k ->
  done c = Some false ->
  (9 + length body <= bufferSize)%nat ->
  parseResponse (packet.header (xff :: ty :: b0 :: body)
                 ++ xff :: ty :: b0 :: body) = Ret r ->
  receiver c buffered
    ((ReadDatagram (packet.header (xff :: ty :: b0 :: body)
                    ++ xff :: ty :: b0 :: body), io, true) :: reads)
  = '(c, buffered, out) ← route c buffered r io;
    '(c, buffered, outs, st) ← receiver c buffered reads;
    Ret (c, buffered, out ++ outs, st).
Proof.
  intros Hk Hd Hlen Hparse. cbn [receiver]. rewrite Hd.
  unfold receiverStep, read. rewrite Hk.
  rewrite take_frame by (cbn [length]; lia). rewrite Hparse.
  cbn [mbind outcome_bind].
  destruct (route c buffered r io) as [[[c1 b1] out]| |]; reflexivity.
Qed.

(** What [handleMessage] does with a datagram of nine bytes or more. *)
Lemma handleMessage_layout (s : server.t) (a0 a1 f0 f1 f2 f3 m ty b0 : byte)
    (body : list byte) (perm : list nat) (wr : nat -> option error) :
  server.handleMessage s
    (a0 :: a1 :: f0 :: f1 :: f2 :: f3 :: m :: ty :: b0 :: body) perm wr =
    if decide (ty = loginType) then
      let '(sent, err) :=
        server.sendPacket
          (packet.mk (if decide (b0 :: body = server.pwd s) then [x01] else [x00])
                     loginType x00) (wr 0%nat) in
      (s, sent, err)
    else if decide (ty = commandType) then
      if decide (body = []) then
        let '(sent, err) :=
          server.sendPacket (packet.mk [] commandType b0) (wr 0%nat) in
        (server.incrKeepAlive s, sent, err)
      else
        match server.multiRespCh s with
        | Some msg =>
            let '(sent, err) :=
              server.sendParts (imap multiResponse.mk (Split msg star)) b0
                (byte_of_nat (length (Split msg star))) perm wr 0 in
            (server.set_multiRespCh None s, sent, err)
        | None =>
            match server.sendPacket
                    (packet.mk (responseTo ++ body) commandType b0) (wr 0%nat) with
            | (sent, Ret _) =>
                if server.duplicateCh s then
                  let '(again, err) :=
                    server.sendPacket
                      (packet.mk ((responseTo ++ body) ++ duplicateMark)
                                 commandType b0) (wr 1%nat) in
                  (server.set_duplicateCh false s, sent ++ again, err)
                else (s, sent, Ret tt)
            | (sent, err) => (s, sent, err)
            end
        end
    else if decide (ty = serverMessageType) then
      (server.incrSrvMsgAck s, [], Ret tt)
    else (s, [], Fail ErrUnknownPacketType).
Proof.
  unfold server.handleMessage.
  destruct (decide (length _ < minPacketSize)%nat) as [H|_];
    [cbn [length] in H; unfold minPacketSize in H; lia|].
  change (index (a0 :: a1 :: f0 :: f1 :: f2 :: f3 :: m :: ty :: b0 :: body) 7)
    with (Ret ty).
  cbv beta iota.
  destruct (decide (ty = loginType)); [reflexivity|].
  destruct (decide (ty = commandType)); [|reflexivity].
  unfold server.handleCommandMessage.
  change (index (a0 :: a1 :: f0 :: f1 :: f2 :: f3 :: m :: ty :: b0 :: body) 8)
    with (Ret b0).
  cbv beta iota.
  destruct body as [|b1 body].
  - rewrite decide_True by reflexivity. reflexivity.
  - destruct (decide (length _ = minPacketSize)) as [H|_];
      [cbn [length] in H; unfold minPacketSize in H; lia|].
    rewrite (decide_False (P := b1 :: body = [])) by discriminate.
    reflexivity.
Qed.

(** The same for a framed payload. *)
Lemma handleMessage_frame (s : server.t) (ty b0 : byte) (body : list byte)
    (perm : list nat) (wr : nat -> option error) :
  server.handleMessage s
    (packet.header (xff :: ty :: b0 :: body) ++ xff :: ty :: b0 :: body)
    perm wr
  = server.handleMessage s
      (x00 :: x00 :: x00 :: x00 :: x00 :: x00 :: x00 :: ty :: b0 :: body)
      perm wr.
Proof.
  destruct (header_layout (xff :: ty :: b0 :: body)) as (f0 & f1 & f2 & f3 & ->).
  cbn [app]. now rewrite !handleMessage_layout.
Qed.




Lemma write_Ret_command (c : Client) (cmd raw : list byte) (k : connState) :
  conn c = Some k ->
  write c (newCommandPacket cmd (Client_seq c)) None = Ret raw ->
  raw = packet.header (xff :: commandType :: Client_seq c :: cmd)
        ++ xff :: commandType :: Client_seq c :: cmd.
Proof. intros Hk H. rewrite (write_command c cmd k Hk) in H. congruence. Qed.

Lemma parse_plain_reply (s : byte) (b : byte) (text : list byte) :
  b ≠ multiPacketType ->
  parseResponse (packet.header (xff :: commandType :: s :: b :: text)
                 ++ xff :: commandType :: s :: b :: text)
  = Ret (CommandResponse (commandResponse.mk (b :: text) s x00 x00 false)).
Proof.
  intros Hb.
  etransitivity; [exact (parseResponse_frame commandType s (b :: text))|].
  rewrite newCommandResponse_plain; [reflexivity|].
  cbn [head]. congruence.
Qed.



(** X22.  A keep-alive against the mock server.  The packet of an empty
    command has nine bytes: the server counts it as a keep-alive and
    answers with an empty command response under the same sequence
    number, whatever replies are pending on its channels; a running
    receiver, with the caller waiting, sends the empty reply and advances
    the counter. *)
Theorem keepalive_exchange (s : server.t) (c : Client) (perm : list nat)
    (wr : nat -> option error) (buffered : list (list byte)) (k : connState)
    (raw : list byte) :
  conn c = Some k ->
  done c = Some false ->
  wr 0%nat = None ->
  write c (newCommandPacket [] (Client_seq c)) None = Ret raw ->
  ∃ d, server.handleMessage s raw perm wr
         = (server.incrKeepAlive s, [d], Ret tt)
       /\ receiver c buffered (arrive [d])
          = Ret (incr c, buffered, [OnCmds []], AtLoop).
Proof.
  intros Hk Hd Hwr Hraw.
  apply (write_Ret_command c [] raw k Hk) in Hraw. subst raw.
  rewrite handleMessage_frame, handleMessage_layout.
  rewrite decide_False by discriminate. rewrite decide_True by reflexivity.
  rewrite decide_True by reflexivity.
  rewrite Hwr, sendPacket_command.
  eexists. split; [reflexivity|].
  unfold arrive. rewrite fmap_cons, fmap_nil.
  rewrite (receiver_frame c buffered k commandType (Client_seq c) []
             (CommandResponse
                (commandResponse.mk [] (Client_seq c) x00 x00 false)));
    try assumption.
  - cbn [route]. unfold handleCommandResponse.
    cbn [commandResponse.seq commandResponse.multi commandResponse.msg negb].
    rewrite decide_False by (intros H; now apply H).
    reflexivity.
  - cbn [length]. unfold bufferSize. lia.
  - etransitivity;
      [exact (parseResponse_frame commandType (Client_seq c) [])|].
    reflexivity.
Qed.

(** The first keep-alive of a fresh client. *)
Lemma keepalive_exchange_witness :
  ∃ d, server.handleMessage (server.newServer secret)
         (packet.header [xff; commandType; Client_seq connectedClient]
          ++ [xff; commandType; Client_seq connectedClient]) [] reliable
         = (server.incrKeepAlive (server.newServer secret), [d], Ret tt)
       /\ receiver connectedClient [] (arrive [d])
          = Ret (incr connectedClient, [], [OnCmds []], AtLoop).
Proof.
  apply (keepalive_exchange (server.newServer secret) connectedClient []
           reliable [] ConnOpen); reflexivity.
Defined.




Lemma formatByte_length (b : byte) : (length (formatByte b) <= 3)%nat.
Proof.
  unfold formatByte.
  destruct (_ <? 10)%nat; [simpl; lia|].
  destruct (_ <? 100)%nat; simpl; lia.
Qed.

(** X24.  A server message against the mock server.  A running receiver
    that reads the datagram the server builds for sequence number [sq]
    queues its text as the non-blocking send decides, writes the
    acknowledgement for [sq], sends nothing on a channel that could block
    it and is back at the top of its loop; the server counts the
    acknowledgement and answers nothing. *)
Theorem ack_exchange (s : server.t) (c : Client) (sq : byte)
    (perm : list nat) (wr : nat -> option error)
    (buffered buffered' : list (list byte)) (k : connState)
    (taken : bool) (reads : list (readResult * option error * bool)) :
  conn c = Some k ->
  done c = Some false ->
  trySend (msgs c) buffered (testServerMessage ++ [" "%byte] ++ formatByte sq)
    = Ret buffered' ->
  ∃ ack,
    receiver c buffered [(ReadDatagram (createServerMessage sq), None, taken)]
      = Ret (c, buffered', [OnWire ack], AtLoop)
    /\ write c (newServerMessageAcknowledgePacket sq) None = Ret ack
    /\ server.handleMessage s ack perm wr
       = (server.incrSrvMsgAck s, [], Ret tt).
Proof.
  intros Hk Hd Hq.
  exists (packet.header [xff; serverMessageType; sq]
          ++ [xff; serverMessageType; sq]).
  split; [|split].
  - cbn [receiver]. rewrite Hd. unfold receiverStep, read. rewrite Hk.
    change (createServerMessage sq)
      with (packet.header (xff :: serverMessageType :: sq
                               :: testServerMessage ++ [" "%byte] ++ formatByte sq)
            ++ xff :: serverMessageType :: sq
                   :: testServerMessage ++ [" "%byte] ++ formatByte sq).
    rewrite take_frame.
    2:{ cbn [length]. rewrite !length_app.
        change (length testServerMessage) with 16%nat. cbn [length].
        pose proof (formatByte_length sq). unfold bufferSize. lia. }
    replace (parseResponse _)
      with (Ret (ServerMessage
                   (serverMessage.mk sq
                      (testServerMessage ++ [" "%byte] ++ formatByte sq))))
      by (symmetry;
          exact (parseResponse_frame serverMessageType sq
                   (testServerMessage ++ [" "%byte] ++ formatByte sq))).
    cbn [mbind outcome_bind route]. unfold handleServerMessage.
    cbn [serverMessage.msg serverMessage.seq]. rewrite Hq.
    cbn [mbind outcome_bind]. unfold write. rewrite Hk.
    change (packet.bytes (newServerMessageAcknowledgePacket sq))
      with (Ret (packet.header [xff; serverMessageType; sq]
                 ++ [xff; serverMessageType; sq])).
    cbn [mbind outcome_bind map untaken]. now destruct taken.
  - unfold write. rewrite Hk. reflexivity.
  - rewrite handleMessage_frame, handleMessage_layout. reflexivity.
Qed.

(** Server message 7 reaching a client whose queue holds one text. *)
Lemma ack_exchange_witness :
  ∃ ack,
    receiver connectedClient [secret]
      [(ReadDatagram (createServerMessage x07), None, false)]
      = Ret (connectedClient,
             [secret; testServerMessage ++ [" "%byte] ++ formatByte x07],
             [OnWire ack], AtLoop)
    /\ write connectedClient (newServerMessageAcknowledgePacket x07) None
       = Ret ack
    /\ server.handleMessage (server.newServer secret) ack [] reliable
       = (server.incrSrvMsgAck (server.newServer secret), [], Ret tt).
Proof.
  apply (ack_exchange (server.newServer secret) connectedClient x07 []
           reliable [secret] _ ConnOpen false []); reflexivity.
Defined.

(** X25.  The mock server reads a datagram from byte 7 on: two datagrams
    of the same length that agree from byte 7 on get the same reaction,
    so the magic bytes, the checksum and the end-of-header byte are never
    checked; and no datagram makes a handler panic as long as [rand.Perm]
    returns indices in range. *)
Theorem handleMessage_from_byte_7 (s : server.t) (b b' : list byte)
    (perm : list nat) (wr : nat -> option error) :
  length b = length b' ->
  drop 7 b = drop 7 b' ->
  server.handleMessage s b perm wr = server.handleMessage s b' perm wr
  /\ ((∀ msg, server.multiRespCh s = Some msg ->
              Forall (fun i => (i < length (Split msg star))%nat) perm) ->
      (server.handleMessage s b perm wr).2 ≠ Panic).
Proof.
  intros Hlen Hdrop.
  destruct (decide (length b < 9)%nat) as [Hshort|Hlong].
  - split.
    + unfold server.handleMessage.
      rewrite !decide_True by (unfold minPacketSize; lia). reflexivity.
    + intros _. unfold server.handleMessage.
      rewrite decide_True by (unfold minPacketSize; lia). discriminate.
  - destruct (nine_bytes b ltac:(lia))
      as (a0 & a1 & f0 & f1 & f2 & f3 & m & ty & b0 & body & ->).
    destruct (nine_bytes b' ltac:(lia))
      as (a0' & a1' & f0' & f1' & f2' & f3' & m' & ty' & b0' & body' & ->).
    cbn [drop] in Hdrop. injection Hdrop as <- <- <-.
    rewrite !handleMessage_layout. split; [reflexivity|].
    intros Hperm.
    destruct (decide (ty = loginType)).
    { destruct (decide (b0 :: body = server.pwd s)), (wr 0%nat); discriminate. }
    destruct (decide (ty = commandType)).
    2:{ destruct (decide (ty = serverMessageType)); discriminate. }
    destruct (decide (body = [])).
    { destruct (wr 0%nat); discriminate. }
    destruct (server.multiRespCh s) as [msg|] eqn:Hm.
    + specialize (Hperm msg eq_refl).
      assert (Hno : ∀ k, (server.sendParts
                            (imap multiResponse.mk (Split msg star)) b0
                            (byte_of_nat (length (Split msg star))) perm wr k).2
                         ≠ Panic).
      { induction Hperm as [|i perm Hi _ IH]; intros k; [discriminate|].
        cbn [server.sendParts]. rewrite list_lookup_imap.
        destruct (Split msg star !! i) as [part|] eqn:E.
        2:{ apply lookup_ge_None in E. lia. }
        cbn [fmap option_fmap option_map]. unfold server.sendBytes.
        destruct (wr k); [discriminate|].
        specialize (IH (S k)).
        destruct (server.sendParts _ _ _ perm wr (S k)) as [rest err].
        exact IH. }
      specialize (Hno 0%nat).
      destruct (server.sendParts _ _ _ perm wr 0) as [sent err]. exact Hno.
    + change (server.sendPacket (packet.mk (responseTo ++ body) commandType b0)
                (wr 0%nat))
        with (server.sendBytes
                (packet.header (xff :: commandType :: b0 :: responseTo ++ body)
                 ++ xff :: commandType :: b0 :: responseTo ++ body) (wr 0%nat)).
      destruct (wr 0%nat); [discriminate|]. cbn [server.sendBytes].
      destruct (server.duplicateCh s); [|discriminate].
      change (server.sendPacket
                (packet.mk ((responseTo ++ body) ++ duplicateMark) commandType b0)
                (wr 1%nat))
        with (server.sendBytes
                (packet.header (xff :: commandType :: b0
                                    :: (responseTo ++ body) ++ duplicateMark)
                 ++ xff :: commandType :: b0
                        :: (responseTo ++ body) ++ duplicateMark) (wr 1%nat)).
      destruct (wr 1%nat); discriminate.
Qed.

(** A command packet and the same bytes under a wrong header. *)
Lemma handleMessage_from_byte_7_witness :
  server.handleMessage (server.newServer secret)
    (packet.header (xff :: commandType :: x00 :: doSomething)
     ++ xff :: commandType :: x00 :: doSomething) [] reliable
  = server.handleMessage (server.newServer secret)
      ([x47; x47; x00; x00; x00; x00; x00]
         ++ commandType :: x00 :: doSomething) [] reliable.
Proof.
  apply (handleMessage_from_byte_7 (server.newServer secret)
           (packet.header (xff :: commandType :: x00 :: doSomething)
            ++ xff :: commandType :: x00 :: doSomething)
           ([x47; x47; x00; x00; x00; x00; x00]
              ++ commandType :: x00 :: doSomething) [] reliable);
    reflexivity.
Defined.

(** X26.  A reply that nobody takes.  A single-packet reply under the
    expected sequence number that arrives while no goroutine waits on
    [cmds] advances the counter all the same, [incr] coming before the
    send, and leaves the receiver blocked in that send: the reads after
    it are not processed, and [Close], with the receiver blocked, does not
    return. *)
Theorem reply_without_taker (c : Client) (buffered : list (list byte))
    (k : connState) (b : byte) (text : list byte) (io : option error)
    (reads : list (readResult * option error * bool)) :
  conn c = Some k ->
  done c = Some false ->
  b ≠ multiPacketType ->
  (10 + length text <= bufferSize)%nat ->
  receiver c buffered
    ((ReadDatagram
        (packet.header (xff :: commandType :: Client_seq c :: b :: text)
         ++ xff :: commandType :: Client_seq c :: b :: text), io, false)
       :: reads)
  = Ret (incr c, buffered, [], BlockedIn (OnCmds (b :: text)))
  /\ Client_seq (incr c) ≠ Client_seq c
  /\ Close (incr c) true = Blocks.
Proof.
  intros Hk Hd Hb Hlen. split; [|split].
  - cbn [receiver]. rewrite Hd. unfold receiverStep, read. rewrite Hk.
    rewrite take_frame by (cbn [length] in *; lia).
    rewrite (parse_plain_reply (Client_seq c) b text Hb).
    cbn [mbind outcome_bind route]. unfold handleCommandResponse.
    cbn [commandResponse.seq commandResponse.multi commandResponse.msg negb].
    rewrite decide_False by (intros H; now apply H).
    reflexivity.
  - apply Client_seq_incr.
  - destruct c. cbn in Hk, Hd. subst. reflexivity.
Qed.

(** A reply arriving at a fresh client before any command was sent. *)
Lemma reply_without_taker_witness :
  receiver connectedClient []
    [ (ReadDatagram
         (packet.header (xff :: commandType :: Client_seq connectedClient
                             :: "s"%byte :: secret)
          ++ xff :: commandType :: Client_seq connectedClient
                 :: "s"%byte :: secret), None, false);
      (ReadTimeout, None, true) ]
  = Ret (incr connectedClient, [], [], BlockedIn (OnCmds ("s"%byte :: secret))).
Proof.
  apply (reply_without_taker connectedClient [] ConnOpen "s"%byte secret None
           [(ReadTimeout, None, true)]).
  - reflexivity.
  - reflexivity.
  - discriminate.
  - vm_compute. lia.
Defined.
